(** * Property flattener of the maps plugin (x-pack/plugins/maps/server/mvt/util.ts)

    A shallow embedding of [flattenHit], [flattenSource] and [flattenFields]
    over a small store model of the JavaScript values they handle, and the
    properties of the flattener stated over it.

    Scope of the value model.  Documents are data as a JSON parser delivers
    them: [undefined], [null], booleans, numbers, strings, arrays and plain
    objects.  Numbers are the integer-valued ones (no NaN), a character of a
    string stands for one UTF-16 code unit below 256, arrays are dense, and no
    value is callable.  Objects and arrays live in a store and are handled
    through references, so that sharing and in-place assignment are visible.

    Two names of [Object.prototype] meet the module and are modelled:
    [hasOwnProperty], which the loops call as a method of the object they
    enumerate, and the accessor [__proto__], which intercepts an assignment
    of that key to the accumulator.  The module is strict code.

    The recursion of [flattenSource] follows references of the store, so the
    embedding carries a budget; every statement about a result is made for
    all budgets from one on. *)

From Stdlib Require Import String Ascii ZArith Bool Lia DecimalString DecimalNat.
From stdpp Require Import base list.

Local Open Scope string_scope.
Local Open Scope list_scope.

(** ** Values and the store *)

Module JS.

Abbreviation loc := nat.

Inductive val :=
| VUndefined
| VNull
| VBool (b : bool)
| VNumber (n : Z)
| VString (s : string)
| VRef (l : loc).

(** The [[Prototype]] slot of an object.  Every object literal and every
    parsed object starts with [ObjectPrototype]; the slot changes only when
    the key [__proto__] is assigned (see [js_set]). *)
Inductive proto :=
| ObjectPrototype
| NullPrototype
| ProtoRef (l : loc).

(** A store cell: an ordinary object with its own enumerable data properties
    in enumeration order, or an array. *)
Inductive cell :=
| Obj (p : proto) (ps : list (string * val))
| Arr (elems : list val).

Abbreviation heap := (list cell).

Inductive exn := TypeError.

(** What a piece of code does on a store: it returns, it throws, it leaves
    the modelled fragment ([Stuck]: a dangling reference, a prototype chain
    that is not followed, an array as assignment target), or the recursion
    budget of the embedding is used up. *)
Inductive outcome (A : Type) :=
| Return (a : A) (h : heap)
| Throw (e : exn) (h : heap)
| Stuck
| OutOfFuel.

Arguments Return {A} a h.
Arguments Throw {A} e h.
Arguments Stuck {A}.
Arguments OutOfFuel {A}.

Definition M (A : Type) := heap -> outcome A.

Definition ret {A} (a : A) : M A := fun h => Return a h.

Definition bind {A B} (m : M A) (k : A -> M B) : M B := fun h =>
  match m h with
  | Return a h' => k a h'
  | Throw e h' => Throw e h'
  | Stuck => Stuck
  | OutOfFuel => OutOfFuel
  end.

Definition out_of_fuel {A} : M A := fun _ => OutOfFuel.

Notation "x <- m ;; k" := (bind m (fun x => k))
  (at level 100, m at next level, right associativity).
Notation "m ;; k" := (bind m (fun _ => k))
  (at level 100, right associativity).

Fixpoint for_each {A} (xs : list A) (body : A -> M unit) : M unit :=
  match xs with
  | [] => ret tt
  | x :: xs' => body x ;; for_each xs' body
  end.

(** ** Own properties *)

Fixpoint lookup_prop (k : string) (ps : list (string * val)) : option val :=
  match ps with
  | [] => None
  | (k', v) :: ps' => if String.eqb k k' then Some v else lookup_prop k ps'
  end.

Definition has_own (k : string) (ps : list (string * val)) : bool :=
  match lookup_prop k ps with Some _ => true | None => false end.

(** Assignment to an own data property: an existing one is overwritten in
    place, a new one is added behind the others. *)
Fixpoint assign (k : string) (v : val) (ps : list (string * val)) : list (string * val) :=
  match ps with
  | [] => [(k, v)]
  | (k', v') :: ps' =>
      if String.eqb k k' then (k, v) :: ps' else (k', v') :: assign k v ps'
  end.

Definition index_key (i : nat) : string := NilEmpty.string_of_uint (Nat.to_uint i).

(** The index properties of an array-like: ["0"], ["1"], ... *)
Definition indexed (vs : list val) : list (string * val) :=
  combine (map index_key (seq 0 (length vs))) vs.

Definition chars (s : string) : list val :=
  map (fun c => VString (String c EmptyString)) (list_ascii_of_string s).

Definition length_value {A} (xs : list A) : val := VNumber (Z.of_nat (length xs)).

(** ** Primitive operations *)

(** ToBoolean. *)
Definition truthy (v : val) : bool :=
  match v with
  | VUndefined | VNull => false
  | VBool b => b
  | VNumber n => negb (Z.eqb n 0)
  | VString s => negb (String.eqb s "")
  | VRef _ => true
  end.

Definition typeof (v : val) : string :=
  match v with
  | VUndefined => "undefined"
  | VNull => "object"
  | VBool _ => "boolean"
  | VNumber _ => "number"
  | VString _ => "string"
  | VRef _ => "object"
  end.

Definition is_null (v : val) : bool :=
  match v with VNull => true | _ => false end.

(** [Array.isArray(v)]. *)
Definition isArray (v : val) : M bool := fun h =>
  match v with
  | VRef l => match h !! l with
              | Some (Arr _) => Return true h
              | Some (Obj _ _) => Return false h
              | None => Stuck
              end
  | _ => Return false h
  end.

(** [{}]: a fresh empty object behind the existing cells. *)
Definition new_object : M val := fun h =>
  Return (VRef (length h)) (h ++ [Obj ObjectPrototype []]).

(** [v[k]] and [v.k].  Only own properties are looked at: the names read by
    the module ([_source], [fields], [_index], [_id], enumerated own keys and
    the index [0]) are defined by no built-in prototype. *)
Definition js_get (v : val) (k : string) : M val := fun h =>
  match v with
  | VUndefined | VNull => Throw TypeError h
  | VBool _ | VNumber _ => Return VUndefined h
  | VString s =>
      Return (if String.eqb k "length" then length_value (chars s)
              else default VUndefined (lookup_prop k (indexed (chars s)))) h
  | VRef l =>
      match h !! l with
      | Some (Obj p ps) =>
          match lookup_prop k ps, p with
          | Some x, _ => Return x h
          | None, ProtoRef _ => Stuck
          | None, _ => Return VUndefined h
          end
      | Some (Arr es) =>
          Return (if String.eqb k "length" then length_value es
                  else default VUndefined (lookup_prop k (indexed es))) h
      | None => Stuck
      end
  end.

(** The keys a [for (const key in v)] loop visits.  [null] and [undefined]
    give no iteration; a string or an array gives its indices. *)
Definition for_in_keys (v : val) : M (list string) := fun h =>
  match v with
  | VString s => Return (map fst (indexed (chars s))) h
  | VRef l =>
      match h !! l with
      | Some (Obj (ProtoRef _) _) => Stuck
      | Some (Obj _ ps) => Return (map fst ps) h
      | Some (Arr es) => Return (map fst (indexed es)) h
      | None => Stuck
      end
  | _ => Return [] h
  end.

(** [v.hasOwnProperty(key)]: the method is looked up on [v] itself first, so
    an own data property of that name shadows [Object.prototype]'s and the
    call throws, as it does on an object without prototype. *)
Definition call_hasOwnProperty (v : val) (key : string) : M bool := fun h =>
  match v with
  | VUndefined | VNull => Throw TypeError h
  | VBool _ | VNumber _ => Return false h
  | VString s =>
      Return (has_own key (indexed (chars s)) || String.eqb key "length") h
  | VRef l =>
      match h !! l with
      | Some (Obj p ps) =>
          match lookup_prop "hasOwnProperty" ps, p with
          | Some _, _ => Throw TypeError h
          | None, ObjectPrototype => Return (has_own key ps) h
          | None, NullPrototype => Throw TypeError h
          | None, ProtoRef _ => Stuck
          end
      | Some (Arr es) =>
          Return (has_own key (indexed es) || String.eqb key "length") h
      | None => Stuck
      end
  end.

(** The setter of [Object.prototype.__proto__] applied to the object at [l]:
    an object or [null] becomes the new prototype, anything else is ignored;
    a prototype chain through [l] itself is refused. *)
Definition set_prototype (l : loc) (ps : list (string * val)) (v : val) : M unit := fun h =>
  match v with
  | VNull => Return tt (<[l := Obj NullPrototype ps]> h)
  | VRef l' =>
      if Nat.eqb l' l then Throw TypeError h
      else match h !! l' with
           | Some (Obj (ProtoRef _) _) => Stuck
           | Some _ => Return tt (<[l := Obj (ProtoRef l') ps]> h)
           | None => Stuck
           end
  | _ => Return tt h
  end.

(** [target[k] = v] in strict code.  An own property is overwritten.  A new
    key becomes an own property, except [__proto__]: that name is found on
    the prototype chain, as the accessor of [Object.prototype] unless the
    chain ends before it or an object on it has a data property of the
    name. *)
Definition js_set (target : val) (k : string) (v : val) : M unit := fun h =>
  match target with
  | VRef l =>
      match h !! l with
      | Some (Obj p ps) =>
          let define := Return tt (<[l := Obj p (assign k v ps)]> h) in
          if has_own k ps then define
          else if negb (String.eqb k "__proto__") then define
          else match p with
               | ObjectPrototype => set_prototype l ps v h
               | NullPrototype => define
               | ProtoRef l' =>
                   match h !! l' with
                   | Some (Obj p' ps') =>
                       if has_own k ps' then define
                       else match p' with
                            | ObjectPrototype => set_prototype l ps v h
                            | NullPrototype => define
                            | ProtoRef _ => Stuck
                            end
                   | Some (Arr _) => set_prototype l ps v h
                   | None => Stuck
                   end
               end
      | _ => Stuck
      end
  | _ => Throw TypeError h
  end.

(** ** The module *)

(** [path ? path + '.' + key : key] *)
Definition new_key (path key : string) : string :=
  if truthy (VString path) then path ++ "." ++ key else key.

Fixpoint flattenSource (fuel : nat)
    (accum : val) (path : string) (properties : val) (geometryField : string) : M val :=
  match fuel with
  | O => out_of_fuel
  | S fuel' =>
      (* properties: Record<string, unknown> = {} *)
      properties <- (match properties with VUndefined => new_object | _ => ret properties end) ;;
      (* accum = accum || {} *)
      accum <- (if truthy accum then ret accum else new_object) ;;
      keys <- for_in_keys properties ;;
      for_each keys (fun key =>
        own <- call_hasOwnProperty properties key ;;
        if own : bool then
          let newKey := new_key path key in
          (* let value; *)
          let value := VUndefined in
          value <-
            (if String.eqb geometryField newKey then
               js_get properties key
             else
               pk <- js_get properties key ;;
               object_like <-
                 (if negb (is_null pk) && String.eqb (typeof value) "object"
                  then arr <- isArray value ;; ret (negb arr)
                  else ret false) ;;
               if object_like : bool then
                 pk <- js_get properties key ;;
                 flattenSource fuel' accum newKey pk geometryField
               else
                 js_get properties key) ;;
          js_set accum newKey value
        else ret tt) ;;
      ret accum
  end.

Definition flattenFields (accum : val) (fields : val) : M val :=
  (* accum: GeoJsonProperties = {} *)
  accum <- (match accum with VUndefined => new_object | _ => ret accum end) ;;
  (* accum = accum || {} *)
  accum <- (if truthy accum then ret accum else new_object) ;;
  keys <- for_in_keys fields ;;
  for_each keys (fun key =>
    own <- call_hasOwnProperty fields key ;;
    if own : bool then
      value <- js_get fields key ;;
      arr <- isArray value ;;
      if arr : bool then
        first <- js_get value "0" ;;
        js_set accum key first
      else
        js_set accum key value
    else ret tt) ;;
  ret VUndefined.

Definition flattenHit (fuel : nat) (geometryField : string) (hit : val) : M val :=
  flat <- new_object ;;
  (if truthy hit then
     source <- js_get hit "_source" ;;
     flattenSource fuel flat "" source geometryField ;;
     fields <- js_get hit "fields" ;;
     (if truthy fields then
        fields <- js_get hit "fields" ;;
        flattenFields flat fields ;;
        ret tt
      else ret tt) ;;
     (* Attach meta fields *)
     index <- js_get hit "_index" ;;
     js_set flat "_index" index ;;
     id <- js_get hit "_id" ;;
     js_set flat "_id" id
   else ret tt) ;;
  ret flat.

End JS.

Import JS.

(** ** The example document of the specification *)

Module Example.

(* {_index: "logs-1", _id: "abc",
    _source: {a: {b: 1, c: [1,2,3]}, geom: {type: "Point", coordinates: [1,2]}}} *)
Definition store : heap :=
  [ Arr [VNumber 1; VNumber 2; VNumber 3];
    Obj ObjectPrototype [("b", VNumber 1); ("c", VRef 0)];
    Arr [VNumber 1; VNumber 2];
    Obj ObjectPrototype [("type", VString "Point"); ("coordinates", VRef 2)];
    Obj ObjectPrototype [("a", VRef 1); ("geom", VRef 3)];
    Obj ObjectPrototype
      [("_index", VString "logs-1"); ("_id", VString "abc"); ("_source", VRef 4)] ].

Definition hit : val := VRef 5.

End Example.

(** ** Further documents *)

(* {_source: {a: {b: 1}}} *)
Module Nested.
Definition store : heap :=
  [ Obj ObjectPrototype [("b", VNumber 1)];
    Obj ObjectPrototype [("a", VRef 0)];
    Obj ObjectPrototype [("_source", VRef 1)] ].
Definition hit : val := VRef 2.
End Nested.

(* {_index: "logs-1", _id: "abc", _source: {hasOwnProperty: true}} *)
Module Shadowing.
Definition store : heap :=
  [ Obj ObjectPrototype [("hasOwnProperty", VBool true)];
    Obj ObjectPrototype
      [("_index", VString "logs-1"); ("_id", VString "abc"); ("_source", VRef 0)] ].
Definition hit : val := VRef 1.
End Shadowing.

(* {_index: "logs-1", _id: "abc",
    _source: {geom: {type: "Point", coordinates: [1,2]}},
    fields: {geom: ["POINT (1 2)"]}} *)
Module GeometryInFields.
Definition store : heap :=
  [ Arr [VNumber 1; VNumber 2];
    Obj ObjectPrototype [("type", VString "Point"); ("coordinates", VRef 0)];
    Obj ObjectPrototype [("geom", VRef 1)];
    Arr [VString "POINT (1 2)"];
    Obj ObjectPrototype [("geom", VRef 3)];
    Obj ObjectPrototype
      [("_index", VString "logs-1"); ("_id", VString "abc");
       ("_source", VRef 2); ("fields", VRef 4)] ].
Definition hit : val := VRef 5.
End GeometryInFields.

(* {_index: "logs-1", _id: "abc", fields: {_id: ["zzz", "yyy"]}} *)
Module MetaInFields.
Definition store : heap :=
  [ Arr [VString "zzz"; VString "yyy"];
    Obj ObjectPrototype [("_id", VRef 0)];
    Obj ObjectPrototype
      [("_index", VString "logs-1"); ("_id", VString "abc"); ("fields", VRef 1)] ].
Definition hit : val := VRef 2.
End MetaInFields.

(* {_index: "logs-1", _id: "abc", _source: {}, fields: {bytes: [42, 43], host: "a"}} *)
Module WithFields.
Definition store : heap :=
  [ Obj ObjectPrototype [];
    Arr [VNumber 42; VNumber 43];
    Obj ObjectPrototype [("bytes", VRef 1); ("host", VString "a")];
    Obj ObjectPrototype
      [("_index", VString "logs-1"); ("_id", VString "abc");
       ("_source", VRef 0); ("fields", VRef 2)] ].
Definition hit : val := VRef 3.
End WithFields.


(* {_index: "logs-1", _id: "abc", _source: ["x", {b: 1}], fields: {tags: []}} *)
Module Odd.
Definition store : heap :=
  [ Obj ObjectPrototype [("b", VNumber 1)];
    Arr [VString "x"; VRef 0];
    Arr [];
    Obj ObjectPrototype [("tags", VRef 2)];
    Obj ObjectPrototype
      [("_index", VString "logs-1"); ("_id", VString "abc");
       ("_source", VRef 1); ("fields", VRef 3)] ].
Definition hit : val := VRef 4.
End Odd.

(* {_source: {"__proto__": {admin: true}, name: "x"}}, as JSON.parse gives it *)
Module Proto.
Definition store : heap :=
  [ Obj ObjectPrototype [("admin", VBool true)];
    Obj ObjectPrototype [("__proto__", VRef 0); ("name", VString "x")];
    Obj ObjectPrototype [("_source", VRef 1)] ].
Definition hit : val := VRef 2.
End Proto.

(** ** Well-formed stores and observations *)

(** A reference is valid when it points into the store. *)
Definition valid (h : heap) (v : val) : bool :=
  match v with
  | VRef l => Nat.ltb l (length h)
  | _ => true
  end.

Fixpoint distinct (ks : list string) : bool :=
  match ks with
  | [] => true
  | k :: ks' => negb (existsb (String.eqb k) ks') && distinct ks'
  end.

(** A cell of a parsed document: property names are distinct, the prototype
    is the built-in one, and no reference dangles. *)
Definition wf_cell (h : heap) (c : cell) : bool :=
  match c with
  | Obj ObjectPrototype ps => distinct (map fst ps) && forallb (valid h) (map snd ps)
  | Obj _ _ => false
  | Arr es => forallb (valid h) es
  end.

Definition wf_heap (h : heap) : bool := forallb (wf_cell h) h.

(** The document handed to [flattenHit] together with its store. *)
Definition wf_doc (h : heap) (hit : val) : bool := wf_heap h && valid h hit.

(** The entries a [for ... in] loop over [v] visits, with their values. *)
Definition own_entries (h : heap) (v : val) : list (string * val) :=
  match v with
  | VString s => indexed (chars s)
  | VRef l =>
      match h !! l with
      | Some (Obj _ ps) => ps
      | Some (Arr es) => indexed es
      | None => []
      end
  | _ => []
  end.

(** [v] is an object with an own property named [hasOwnProperty]. *)
Definition shadowed (h : heap) (v : val) : bool :=
  match v with
  | VRef l =>
      match h !! l with
      | Some (Obj _ ps) => has_own "hasOwnProperty" ps
      | _ => false
      end
  | _ => false
  end.

(** A property read that cannot throw: [v.k], [undefined] when [v] has no
    such own property. *)
Definition field (h : heap) (v : val) (k : string) : val :=
  match v with
  | VString s =>
      if String.eqb k "length" then length_value (chars s)
      else default VUndefined (lookup_prop k (indexed (chars s)))
  | VRef l =>
      match h !! l with
      | Some (Obj _ ps) => default VUndefined (lookup_prop k ps)
      | Some (Arr es) =>
          if String.eqb k "length" then length_value es
          else default VUndefined (lookup_prop k (indexed es))
      | None => VUndefined
      end
  | _ => VUndefined
  end.

(** The own property [k] of the object [r] refers to, if any. *)
Definition own_property (h : heap) (r : val) (k : string) : option val :=
  match r with
  | VRef l =>
      match h !! l with
      | Some (Obj _ ps) => lookup_prop k ps
      | _ => None
      end
  | _ => None
  end.

(** What [flattenFields] stores for a table entry of value [x]. *)
Definition first_or_self (h : heap) (x : val) : val :=
  match x with
  | VRef l =>
      match h !! l with
      | Some (Arr es) => default VUndefined (lookup_prop "0" (indexed es))
      | _ => x
      end
  | _ => x
  end.

(** The full dotted path of a descendant: the names [ks] below [path]. *)
Definition descend (path : string) (ks : list string) : string :=
  fold_left new_key ks path.

(** The walk of the source tree as the specification words it, to compare
    the code with: an entry whose full path is the geometry designator is
    listed as it is; any other value that is a non-null object and not an
    array is descended into with the extended path; every other value is
    listed under its dotted path. *)
Fixpoint spec_walk (fuel : nat) (h : heap) (geometryFieldPath path : string) (v : val)
    : option (list (string * val)) :=
  match fuel with
  | O => None
  | S fuel' =>
      fold_right
        (fun (e : string * val) (rest : option (list (string * val))) =>
           let full := new_key path (fst e) in
           let here :=
             if String.eqb geometryFieldPath full then Some [(full, snd e)]
             else
               match snd e with
               | VRef l =>
                   match h !! l with
                   | Some (Obj _ _) => spec_walk fuel' h geometryFieldPath full (snd e)
                   | _ => Some [(full, snd e)]
                   end
               | x => Some [(full, x)]
               end in
           match here, rest with
           | Some leaves, Some leaves' => Some (leaves ++ leaves')
           | _, _ => None
           end)
        (Some [])
        (own_entries h v)
  end.

(** Any value: the postcondition of a step whose result is not constrained. *)
Definition any {A} : A -> Prop := fun _ => True.

(** [null] or [undefined]: the values a property read throws on. *)
Definition nullish (v : val) : bool :=
  match v with VUndefined | VNull => true | _ => false end.

(** [v] refers to an array of the store. *)
Definition array_ref (h : heap) (v : val) : bool :=
  match v with
  | VRef l => match h !! l with Some (Arr _) => true | _ => false end
  | _ => false
  end.

(** The prototype of the accumulator stays the built-in one, [null], or an
    object of the document. *)
Definition proto_ok (h : heap) (p : proto) : Prop :=
  match p with
  | ProtoRef l => l < length h
  | _ => True
  end.

(** [ps'] is [ps] after the entries [es] were assigned, each name once. *)
Definition stores (es ps ps' : list (string * val)) : Prop :=
  (forall k x, In (k, x) es -> k <> "__proto__" -> lookup_prop k ps' = Some x) /\
  (forall k, ~ In k (map fst es) -> lookup_prop k ps' = lookup_prop k ps).

(** The body of the loop of [flattenSource], and of [flattenFields]. *)
Definition source_body (n : nat) (accum : val) (path : string) (properties : val)
    (g : string) (key : string) : M unit :=
  own <- call_hasOwnProperty properties key ;;
  if own : bool then
    let newKey := new_key path key in
    let value := VUndefined in
    value <-
      (if String.eqb g newKey then
         js_get properties key
       else
         pk <- js_get properties key ;;
         object_like <-
           (if negb (is_null pk) && String.eqb (typeof value) "object"
            then arr <- isArray value ;; ret (negb arr)
            else ret false) ;;
         if object_like : bool then
           pk <- js_get properties key ;;
           flattenSource n accum newKey pk g
         else
           js_get properties key) ;;
    js_set accum newKey value
  else ret tt.

Definition fields_body (accum fields : val) (key : string) : M unit :=
  own <- call_hasOwnProperty fields key ;;
  if own : bool then
    value <- js_get fields key ;;
    arr <- isArray value ;;
    if arr : bool then
      first <- js_get value "0" ;;
      js_set accum key first
    else
      js_set accum key value
  else ret tt.

(** What the loop of [flattenFields] assigns: the entries of the table, an
    array replaced by its element [0]. *)
Definition stored_fields (h : heap) (fields : val) : list (string * val) :=
  map (fun e => (fst e, first_or_self h (snd e))) (own_entries h fields).

(** The own properties [ps] of the map returned for a present document:
    the root entries of the source tree, then the computed fields if the
    table is truthy, then the two meta fields. *)
Definition flattened (h : heap) (hit : val) (ps : list (string * val)) : Prop :=
  exists ps1 ps2,
    stores (own_entries h (field h hit "_source")) [] ps1 /\
    (if truthy (field h hit "fields")
     then stores (stored_fields h (field h hit "fields")) ps1 ps2
     else ps2 = ps1) /\
    stores [("_index", field h hit "_index"); ("_id", field h hit "_id")] ps2 ps.

(** The one way [flattenHit] throws: the source tree, or a truthy table of
    computed fields, has an own property named [hasOwnProperty]. *)
Definition shadows_hasOwnProperty (h : heap) (hit : val) : Prop :=
  shadowed h (field h hit "_source") = true \/
  (truthy (field h hit "fields") = true /\
   shadowed h (field h hit "fields") = true).

(** [H] is [h0] with cells added behind it: every cell of [h0] is where
    it was, unchanged. *)
Definition extends (h0 H : heap) : Prop := exists ext, H = h0 ++ ext.

(** A value that is not a reference to a cell of [h0]. *)
Definition outside (h0 : heap) (v : val) : Prop :=
  match v with
  | VRef l => length h0 <= l
  | _ => True
  end.

(** [m] leaves the cells of [h0] alone, and what it returns satisfies [Q]. *)
Definition keeps (h0 : heap) {A} (m : M A) (Q : A -> Prop) : Prop :=
  forall H, extends h0 H ->
    match m H with
    | Return a H' => extends h0 H' /\ Q a
    | Throw _ H' => extends h0 H'
    | Stuck | OutOfFuel => True
    end.

(** A path with a separator in it. *)
Fixpoint has_dot (s : string) : bool :=
  match s with
  | EmptyString => false
  | String c s' => Ascii.eqb c "." || has_dot s'
  end.

(** The accumulator seen by itself: its prototype and its own properties.
    [put h o (k, v)] is [o] after [accum[k] = v], for an accumulator that is
    not a cell of the document store [h] and a value [v] of the document. *)
Definition put (h : heap) (o : proto * list (string * val)) (e : string * val)
    : proto * list (string * val) :=
  let (p, ps) := o in
  let (k, v) := e in
  let define := (p, assign k v ps) in
  let setter :=
    match v with
    | VNull => (NullPrototype, ps)
    | VRef l => (ProtoRef l, ps)
    | _ => (p, ps)
    end in
  if has_own k ps then define
  else if negb (String.eqb k "__proto__") then define
  else match p with
       | ObjectPrototype => setter
       | NullPrototype => define
       | ProtoRef l' =>
           match h !! l' with
           | Some (Obj _ ps') => if has_own k ps' then define else setter
           | _ => setter
           end
       end.

(** The entries of [es] with their keys below [path]. *)
Definition prefixed (path : string) (es : list (string * val)) : list (string * val) :=
  map (fun e => (new_key path (fst e), snd e)) es.

(** All the assignments [flattenHit] makes to its result, in order. *)
Definition assignments (h : heap) (hit : val) : list (string * val) :=
  own_entries h (field h hit "_source") ++
  (if truthy (field h hit "fields")
   then stored_fields h (field h hit "fields") else []) ++
  [("_index", field h hit "_index"); ("_id", field h hit "_id")].

(** The cell of the result. *)
Definition flat_object (h : heap) (hit : val) : cell :=
  let (p, ps) := fold_left (put h) (assignments h hit) (ObjectPrototype, []) in
  Obj p ps.

(** The empty object [flattenSource] creates for an [undefined] source. *)
Definition default_object (v : val) : heap :=
  match v with
  | VUndefined => [Obj ObjectPrototype []]
  | _ => []
  end.

(** The prototype of the object [r] refers to. *)
Definition prototype_of (h : heap) (r : val) : option proto :=
  match r with
  | VRef l =>
      match h !! l with
      | Some (Obj p _) => Some p
      | _ => None
      end
  | _ => None
  end.

(** The prototype a value becomes when it is assigned to [__proto__]. *)
Definition as_prototype (v : val) : proto :=
  match v with
  | VRef l => ProtoRef l
  | VNull => NullPrototype
  | _ => ObjectPrototype
  end.

(** ** Own properties: lookup and assignment *)

Section Properties.

Implicit Types (k : string) (v x : val) (ps es : list (string * val)).

Lemma lookup_assign_eq k v ps : lookup_prop k (assign k v ps) = Some v.
Proof.
  induction ps as [|[k' v'] ps IH]; simpl.
  - now rewrite String.eqb_refl.
  - destruct (String.eqb_spec k k') as [->|Hne]; simpl.
    + now rewrite String.eqb_refl.
    + destruct (String.eqb_spec k k'); [contradiction | exact IH].
Qed.

Lemma lookup_assign_ne k k' v ps :
  k' <> k -> lookup_prop k' (assign k v ps) = lookup_prop k' ps.
Proof.
  intros Hne. induction ps as [|[k0 v0] ps IH]; simpl.
  - destruct (String.eqb_spec k' k); [contradiction | reflexivity].
  - destruct (String.eqb_spec k k0) as [->|Hk]; simpl.
    + destruct (String.eqb_spec k' k0); [contradiction | reflexivity].
    + destruct (String.eqb_spec k' k0); [reflexivity | exact IH].
Qed.

Lemma lookup_prop_Some_In k x ps : lookup_prop k ps = Some x -> In (k, x) ps.
Proof.
  induction ps as [|[k' v'] ps IH]; simpl; [discriminate|].
  destruct (String.eqb_spec k k') as [->|Hne]; intros H.
  - injection H as ->. now left.
  - right. now apply IH.
Qed.

Lemma lookup_prop_None k ps : lookup_prop k ps = None <-> ~ In k (map fst ps).
Proof.
  induction ps as [|[k' v'] ps IH]; simpl.
  - tauto.
  - destruct (String.eqb_spec k k') as [->|Hne].
    + split; [discriminate | intros H; exfalso; apply H; now left].
    + rewrite IH. split; [intros H [E|I]; [congruence | tauto] | tauto].
Qed.

Lemma has_own_In k ps : has_own k ps = true <-> In k (map fst ps).
Proof.
  unfold has_own. destruct (lookup_prop k ps) eqn:E.
  - split; [intros _ | reflexivity].
    apply lookup_prop_Some_In in E. change k with (fst (k, v)). now apply in_map.
  - split; [discriminate | intros I]. now apply lookup_prop_None in E.
Qed.

Lemma existsb_eqb_In k (ks : list string) : existsb (String.eqb k) ks = true <-> In k ks.
Proof.
  rewrite existsb_exists. split.
  - intros [y [I E]]. apply String.eqb_eq in E. now subst.
  - intros I. exists k. split; [exact I | apply String.eqb_refl].
Qed.

Lemma distinct_NoDup (ks : list string) : distinct ks = true <-> List.NoDup ks.
Proof.
  induction ks as [|k ks IH]; simpl.
  - split; [constructor | reflexivity].
  - rewrite andb_true_iff, negb_true_iff, IH. split.
    + intros [E N]. constructor; [|exact N].
      intros I. apply existsb_eqb_In in I. congruence.
    + intros N. inversion N as [|? ? NI N']; subst. split; [|exact N'].
      destruct (existsb (String.eqb k) ks) eqn:E; [|reflexivity].
      apply existsb_eqb_In in E. contradiction.
Qed.

Lemma lookup_prop_In k x ps :
  distinct (map fst ps) = true -> In (k, x) ps -> lookup_prop k ps = Some x.
Proof.
  induction ps as [|[k' v'] ps IH]; simpl; [tauto|].
  rewrite andb_true_iff, negb_true_iff. intros [E D] [I|I].
  - injection I as -> ->. now rewrite String.eqb_refl.
  - destruct (String.eqb_spec k k') as [->|Hne]; [|now apply IH].
    exfalso. assert (In k' (map fst ps)) as I'.
    { change k' with (fst (k', x)). now apply in_map. }
    apply existsb_eqb_In in I'. congruence.
Qed.

Lemma index_key_inj i j : index_key i = index_key j -> i = j.
Proof.
  unfold index_key. intros E.
  assert (Some (Nat.to_uint i) = Some (Nat.to_uint j)) as E'.
  { rewrite <- !NilEmpty.usu. now rewrite E. }
  injection E' as E'.
  rewrite <- (Unsigned.of_to i), <- (Unsigned.of_to j). now rewrite E'.
Qed.

Lemma fst_combine_same_length {A B} (xs : list A) (ys : list B) :
  length xs = length ys -> map fst (combine xs ys) = xs.
Proof.
  revert ys. induction xs as [|a xs IH]; intros [|b ys]; simpl; try discriminate.
  - reflexivity.
  - intros E. f_equal. apply IH. now injection E.
Qed.

Lemma keys_indexed (vs : list val) :
  map fst (indexed vs) = map index_key (seq 0 (length vs)).
Proof.
  unfold indexed. apply fst_combine_same_length.
  now rewrite length_map, length_seq.
Qed.

Lemma distinct_indexed (vs : list val) : distinct (map fst (indexed vs)) = true.
Proof.
  rewrite keys_indexed. apply distinct_NoDup.
  apply Finite.Injective_map_NoDup; [|apply seq_NoDup].
  intros i j. apply index_key_inj.
Qed.

Lemma indexed_In k x (vs : list val) : In (k, x) (indexed vs) -> In x vs.
Proof. unfold indexed. apply in_combine_r. Qed.

Lemma index_key_not_length i : index_key i <> "length".
Proof.
  unfold index_key. intros E.
  pose proof (NilEmpty.usu (Nat.to_uint i)) as U. rewrite E in U. discriminate U.
Qed.

Lemma indexed_key_not_length k x (vs : list val) :
  In (k, x) (indexed vs) -> String.eqb k "length" = false.
Proof.
  intros I. assert (In k (map fst (indexed vs))) as Ik.
  { change k with (fst (k, x)). now apply in_map. }
  rewrite keys_indexed, in_map_iff in Ik. destruct Ik as [i [<- _]].
  apply String.eqb_neq, index_key_not_length.
Qed.

End Properties.

(** ** The store around the accumulator *)

Section Store.

Implicit Types (h rest : heap) (k : string) (v x : val) (ps es : list (string * val)).

Lemma insert_middle (h rest : heap) (c c' : cell) :
  <[length h := c']> (h ++ c :: rest) = h ++ c' :: rest.
Proof. induction h as [|c0 h IH]; simpl; [reflexivity | now rewrite IH]. Qed.

Lemma lookup_old (h ext : heap) l : l < length h -> (h ++ ext) !! l = h !! l.
Proof. apply lookup_app_l. Qed.

Lemma valid_ref h l : valid h (VRef l) = true -> l < length h.
Proof. simpl. now rewrite Nat.ltb_lt. Qed.

Lemma wf_heap_lookup h l c :
  wf_heap h = true -> h !! l = Some c -> wf_cell h c = true.
Proof.
  unfold wf_heap. rewrite forallb_forall. intros W E. apply W.
  apply list_elem_of_In. eapply list_elem_of_lookup_2. exact E.
Qed.

Lemma valid_ref_cell h l :
  wf_heap h = true -> valid h (VRef l) = true ->
  exists c, h !! l = Some c /\ wf_cell h c = true.
Proof.
  intros W V. apply valid_ref in V.
  destruct (h !! l) as [c|] eqn:E.
  - exists c. split; [reflexivity | now apply (wf_heap_lookup h l)].
  - apply lookup_ge_None in E. lia.
Qed.

Lemma wf_obj h p ps :
  wf_cell h (Obj p ps) = true ->
  p = ObjectPrototype /\ distinct (map fst ps) = true /\
  (forall k x, In (k, x) ps -> valid h x = true).
Proof.
  simpl. destruct p; try discriminate.
  rewrite andb_true_iff, forallb_forall. intros [D V].
  repeat split; [exact D|]. intros k x I. apply V.
  change x with (snd (k, x)). now apply in_map.
Qed.

Lemma wf_arr h (vs : list val) x :
  wf_cell h (Arr vs) = true -> In x vs -> valid h x = true.
Proof. simpl. rewrite forallb_forall. auto. Qed.

Lemma chars_valid h s x : In x (chars s) -> valid h x = true.
Proof.
  unfold chars. rewrite in_map_iff. intros [c [<- _]]. reflexivity.
Qed.

Lemma own_entries_distinct h v :
  wf_heap h = true -> distinct (map fst (own_entries h v)) = true.
Proof.
  intros W. destruct v as [| | | |s|l]; simpl; try reflexivity.
  - apply distinct_indexed.
  - destruct (h !! l) as [[p ps|es]|] eqn:E; [| apply distinct_indexed | reflexivity].
    apply wf_heap_lookup in E; [|exact W]. now apply wf_obj in E.
Qed.

Lemma own_entries_valid h v k x :
  wf_heap h = true -> In (k, x) (own_entries h v) -> valid h x = true.
Proof.
  intros W. destruct v as [| | | |s|l]; simpl; try (intros []; fail).
  - intros I. apply indexed_In in I. now apply (chars_valid h s).
  - destruct (h !! l) as [[p ps|es]|] eqn:E; [| |intros []].
    + apply wf_heap_lookup in E; [|exact W]. apply wf_obj in E.
      intros I. now apply (proj2 (proj2 E) k).
    + apply wf_heap_lookup in E; [|exact W].
      intros I. apply indexed_In in I. now apply (wf_arr h _ x E).
Qed.

Lemma own_entries_field h v k x :
  wf_heap h = true -> In (k, x) (own_entries h v) -> field h v k = x.
Proof.
  intros W I. pose proof (own_entries_distinct h v W) as D.
  destruct v as [| | | |s|l]; simpl in *; try (destruct I; fail).
  - rewrite (indexed_key_not_length k x _ I).
    now rewrite (lookup_prop_In k x).
  - destruct (h !! l) as [[p ps|vs]|] eqn:E; [| |destruct I].
    + now rewrite (lookup_prop_In k x).
    + rewrite (indexed_key_not_length k x _ I).
      now rewrite (lookup_prop_In k x).
Qed.

End Store.

(** ** Single steps on a store that extends the document's *)

Section Steps.

Variable h : heap.
Hypothesis wf : wf_heap h = true.

Implicit Types (ext rest : heap) (k : string) (v x : val) (ps : list (string * val)).

Lemma js_get_old ext v k :
  valid h v = true ->
  js_get v k (h ++ ext) =
  if nullish v then Throw TypeError (h ++ ext) else Return (field h v k) (h ++ ext).
Proof.
  intros V. destruct v as [| | | |s|l]; try reflexivity.
  destruct (valid_ref_cell h l wf V) as [c [E W]].
  unfold js_get, field, nullish. rewrite lookup_old by now apply valid_ref. rewrite E.
  destruct c as [p ps|vs]; [|reflexivity].
  apply wf_obj in W. destruct W as [-> _].
  now destruct (lookup_prop k ps).
Qed.

Lemma for_in_keys_old ext v :
  valid h v = true ->
  for_in_keys v (h ++ ext) = Return (map fst (own_entries h v)) (h ++ ext).
Proof.
  intros V. destruct v as [| | | |s|l]; try reflexivity.
  destruct (valid_ref_cell h l wf V) as [c [E W]].
  unfold for_in_keys, own_entries. rewrite lookup_old by now apply valid_ref. rewrite E.
  destruct c as [p ps|vs]; [|reflexivity].
  apply wf_obj in W. now destruct W as [-> _].
Qed.

Lemma call_hasOwnProperty_old ext v k :
  valid h v = true -> In k (map fst (own_entries h v)) ->
  call_hasOwnProperty v k (h ++ ext) =
  if shadowed h v then Throw TypeError (h ++ ext) else Return true (h ++ ext).
Proof.
  intros V I. destruct v as [| | | |s|l]; try (destruct I; fail).
  - apply has_own_In in I. unfold call_hasOwnProperty. simpl in *. now rewrite I.
  - destruct (valid_ref_cell h l wf V) as [c [E W]].
    unfold call_hasOwnProperty, shadowed, own_entries in *.
    rewrite lookup_old by now apply valid_ref.
    rewrite E in *. destruct c as [p ps|vs].
    + apply wf_obj in W. destruct W as [-> _]. unfold has_own.
      destruct (lookup_prop "hasOwnProperty" ps); [reflexivity|].
      apply has_own_In in I. unfold has_own in I. now rewrite I.
    + apply has_own_In in I. now rewrite I.
Qed.

Lemma isArray_old ext x :
  valid h x = true -> isArray x (h ++ ext) = Return (array_ref h x) (h ++ ext).
Proof.
  intros V. destruct x as [| | | |s|l]; try reflexivity.
  destruct (valid_ref_cell h l wf V) as [c [E W]].
  unfold isArray, array_ref. rewrite lookup_old by now apply valid_ref. rewrite E.
  now destruct c.
Qed.

Lemma first_or_self_valid x : valid h x = true -> valid h (first_or_self h x) = true.
Proof.
  intros V. destruct x as [| | | |s|l]; try reflexivity.
  unfold first_or_self.
  destruct (h !! l) as [[p ps|vs]|] eqn:E; try exact V.
  destruct (lookup_prop "0" (indexed vs)) as [y|] eqn:L; [|reflexivity].
  simpl. apply lookup_prop_Some_In, indexed_In in L.
  apply (wf_arr h vs); [|exact L]. now apply (wf_heap_lookup h l).
Qed.

(** Assignment to the accumulator, the cell just behind the document's. *)
Lemma js_set_flat rest p ps k v :
  valid h v = true -> proto_ok h p ->
  exists p' ps',
    js_set (VRef (length h)) k v (h ++ Obj p ps :: rest)
      = Return tt (h ++ Obj p' ps' :: rest) /\
    proto_ok h p' /\ stores [(k, v)] ps ps'.
Proof.
  intros V P. unfold js_set.
  rewrite list_lookup_middle by reflexivity. cbv zeta.
  assert (stores [(k, v)] ps (assign k v ps)) as Hdef.
  { split.
    - intros k0 x [I|[]] _. injection I as <- <-. apply lookup_assign_eq.
    - intros k0 N. apply lookup_assign_ne. simpl in N. intros ->. tauto. }
  assert (forall ps', (forall k0, k0 <> k -> lookup_prop k0 ps' = lookup_prop k0 ps) ->
            k = "__proto__" -> stores [(k, v)] ps ps') as Hskip.
  { intros ps' Hps' ->. split.
    - intros k0 x [I|[]] N. injection I as <- <-. congruence.
    - intros k0 N. apply Hps'. simpl in N. intros ->. tauto. }
  assert (k = "__proto__" ->
          exists p' ps',
            set_prototype (length h) ps v (h ++ Obj p ps :: rest)
              = Return tt (h ++ Obj p' ps' :: rest) /\
            proto_ok h p' /\ stores [(k, v)] ps ps') as Hproto.
  { intros Hk. unfold set_prototype.
    destruct v as [| | | |s|l];
      try (exists p, ps; split; [reflexivity | split; [exact P | now apply Hskip]]).
    - exists NullPrototype, ps. rewrite insert_middle.
      split; [reflexivity | split; [exact I | now apply Hskip]].
    - destruct (Nat.eqb_spec l (length h)) as [->|Hl].
      { apply valid_ref in V. lia. }
      destruct (valid_ref_cell h l wf V) as [c [E W]].
      rewrite lookup_old by now apply valid_ref. rewrite E.
      exists (ProtoRef l), ps. rewrite insert_middle.
      destruct c as [p0 ps0|vs].
      + apply wf_obj in W. destruct W as [-> _].
        split; [reflexivity | split; [now apply valid_ref | now apply Hskip]].
      + split; [reflexivity | split; [now apply valid_ref | now apply Hskip]]. }
  destruct (has_own k ps) eqn:Own.
  { exists p, (assign k v ps). rewrite insert_middle. auto. }
  destruct (String.eqb_spec k "__proto__") as [Hk|Hk]; simpl.
  2:{ exists p, (assign k v ps). rewrite insert_middle. auto. }
  destruct p as [| |l'].
  - now apply Hproto.
  - exists NullPrototype, (assign k v ps). rewrite insert_middle. auto.
  - simpl in P.
    destruct (valid_ref_cell h l') as [c [E W]]; [exact wf | now apply Nat.ltb_lt |].
    rewrite lookup_old by exact P. rewrite E.
    destruct c as [p0 ps0|vs]; [|now apply Hproto].
    apply wf_obj in W. destruct W as [-> _].
    destruct (has_own k ps0); [|now apply Hproto].
    exists (ProtoRef l'), (assign k v ps). rewrite insert_middle. auto.
Qed.

(** A loop whose body assigns each visited entry to the accumulator. *)
Lemma for_each_stores rest (body : string -> M unit) (es : list (string * val)) :
  distinct (map fst es) = true ->
  (forall k x, In (k, x) es -> valid h x = true) ->
  (forall k x p ps, In (k, x) es -> proto_ok h p ->
     body k (h ++ Obj p ps :: rest)
       = js_set (VRef (length h)) k x (h ++ Obj p ps :: rest)) ->
  forall p ps, proto_ok h p ->
  exists p' ps',
    for_each (map fst es) body (h ++ Obj p ps :: rest)
      = Return tt (h ++ Obj p' ps' :: rest) /\
    proto_ok h p' /\ stores es ps ps'.
Proof.
  induction es as [|[k x] es IH]; intros D V B p ps P.
  - exists p, ps. split; [reflexivity | split; [exact P|]].
    split; [intros k x [] | reflexivity].
  - simpl in D. apply andb_true_iff in D. destruct D as [Dk D].
    apply negb_true_iff in Dk.
    assert (~ In k (map fst es)) as Nk.
    { intros I. apply existsb_eqb_In in I. congruence. }
    destruct (js_set_flat rest p ps k x) as [p1 [ps1 [E1 [P1 [S1 K1]]]]];
      [apply (V k x); now left | exact P |].
    destruct (IH D) with (p := p1) (ps := ps1) as [p' [ps' [E' [P' [S' K']]]]].
    + intros k0 x0 I. apply (V k0 x0). now right.
    + intros k0 x0 p0 ps0 I. apply B. now right.
    + exact P1.
    + exists p', ps'. split; [|split; [exact P'|split]].
      * simpl. unfold bind. rewrite (B k x) by (auto; now left). rewrite E1. exact E'.
      * intros k0 x0 [I|I] N.
        -- injection I as <- <-. rewrite K' by exact Nk. apply (S1 k x); [now left | exact N].
        -- now apply S'.
      * intros k0 N. simpl in N. rewrite K' by tauto. apply K1. simpl. tauto.
Qed.

Lemma stores_nil ps : stores [] ps ps.
Proof. split; [intros k x [] | reflexivity]. Qed.

Lemma flattenSource_unfold n accum path properties g :
  flattenSource (S n) accum path properties g =
  (properties <- (match properties with VUndefined => new_object | _ => ret properties end) ;;
   accum <- (if truthy accum then ret accum else new_object) ;;
   keys <- for_in_keys properties ;;
   for_each keys (source_body n accum path properties g) ;;
   ret accum).
Proof. reflexivity. Qed.

Lemma flattenFields_unfold accum fields :
  flattenFields accum fields =
  (accum <- (match accum with VUndefined => new_object | _ => ret accum end) ;;
   accum <- (if truthy accum then ret accum else new_object) ;;
   keys <- for_in_keys fields ;;
   for_each keys (fields_body accum fields) ;;
   ret VUndefined).
Proof. reflexivity. Qed.

Lemma entries_not_nullish v k x : In (k, x) (own_entries h v) -> nullish v = false.
Proof. destruct v; simpl; tauto. Qed.

Lemma entry_key_In k x (es : list (string * val)) : In (k, x) es -> In k (map fst es).
Proof. intros I. change k with (fst (k, x)). now apply in_map. Qed.

(** At the root every visited entry is assigned as it is: [value] is still
    [undefined] when its type is tested, so the walk never descends. *)
Lemma source_body_root n g ext src k x :
  valid h src = true -> shadowed h src = false ->
  In (k, x) (own_entries h src) ->
  source_body n (VRef (length h)) "" src g k (h ++ ext)
    = js_set (VRef (length h)) k x (h ++ ext).
Proof.
  intros V Sh I. unfold source_body, bind.
  rewrite call_hasOwnProperty_old, Sh by (auto; now apply (entry_key_In k x)).
  cbv zeta. change (new_key "" k) with k.
  change (String.eqb (typeof VUndefined) "object") with false.
  pose proof (entries_not_nullish src k x I) as Nu.
  pose proof (own_entries_field h src k x wf I) as F.
  destruct (String.eqb g k); rewrite js_get_old, Nu, F by exact V; [reflexivity|].
  rewrite andb_false_r. unfold ret.
  rewrite js_get_old, Nu, F by exact V. reflexivity.
Qed.

Lemma shadowed_first_key v :
  shadowed h v = true -> exists k ks, map fst (own_entries h v) = k :: ks.
Proof.
  destruct v as [| | | |s|l]; simpl; try discriminate.
  destruct (h !! l) as [[p ps|vs]|]; try discriminate.
  intros I. apply has_own_In in I.
  destruct (map fst ps) as [|k ks]; [destruct I | eauto].
Qed.

(** The walk over the source tree, started at the root on the accumulator
    behind the document's cells: it throws on the first key when the tree
    shadows [hasOwnProperty], and otherwise assigns every root entry. *)
Lemma flattenSource_root n g rest p ps src :
  valid h src = true -> proto_ok h p ->
  exists rest',
    if shadowed h src then
      flattenSource (S n) (VRef (length h)) "" src g (h ++ Obj p ps :: rest)
        = Throw TypeError (h ++ Obj p ps :: rest')
    else
      exists p' ps',
        flattenSource (S n) (VRef (length h)) "" src g (h ++ Obj p ps :: rest)
          = Return (VRef (length h)) (h ++ Obj p' ps' :: rest') /\
        proto_ok h p' /\ stores (own_entries h src) ps ps'.
Proof.
  intros V P. rewrite flattenSource_unfold.
  destruct (nullish src) eqn:Nu; [destruct src; try discriminate|].
  - (* undefined: the default parameter *)
    exists (rest ++ [Obj ObjectPrototype []]). simpl shadowed. cbv iota.
    exists p, ps. split; [|split; [exact P | apply stores_nil]].
    unfold bind, new_object, ret, for_in_keys.
    change (truthy (VRef (length h))) with true. cbv iota beta.
    rewrite list_lookup_middle by reflexivity. simpl.
    now rewrite <- app_assoc.
  - (* null: no iteration *)
    exists rest. simpl shadowed. cbv iota.
    exists p, ps. split; [reflexivity | split; [exact P | apply stores_nil]].
  - exists rest.
    assert ((match src with VUndefined => new_object | _ => ret src end) = ret src) as ->
      by (destruct src; try reflexivity; discriminate).
    change (truthy (VRef (length h))) with true. cbv iota.
    destruct (shadowed h src) eqn:Sh.
    + unfold bind at 1 2 3. unfold ret at 1 2.
      rewrite for_in_keys_old by exact V.
      destruct (shadowed_first_key src Sh) as [k [ks Ek]].
      unfold bind. rewrite Ek. simpl for_each. unfold bind, source_body, bind.
      rewrite call_hasOwnProperty_old, Sh; [reflexivity | exact V |].
      rewrite Ek. now left.
    + unfold bind at 1 2 3. unfold ret at 1 2.
      rewrite for_in_keys_old by exact V.
      destruct (for_each_stores rest
                  (source_body n (VRef (length h)) "" src g) (own_entries h src))
        with (p := p) (ps := ps) as [p' [ps' [E [P' S']]]].
      * now apply own_entries_distinct.
      * intros k x. now apply own_entries_valid.
      * intros k x p0 ps0 I _. now apply source_body_root.
      * exact P.
      * exists p', ps'. unfold bind. rewrite E. auto.
Qed.

Lemma first_or_self_array x :
  array_ref h x = true -> nullish x = false /\ field h x "0" = first_or_self h x.
Proof.
  destruct x as [| | | |s|l]; try discriminate.
  unfold array_ref, field, first_or_self.
  destruct (h !! l) as [[p ps|vs]|]; try discriminate. auto.
Qed.

Lemma first_or_self_other x : array_ref h x = false -> first_or_self h x = x.
Proof.
  destruct x as [| | | |s|l]; try reflexivity.
  unfold array_ref, first_or_self.
  destruct (h !! l) as [[p ps|vs]|]; try discriminate; reflexivity.
Qed.

Lemma fields_body_step ext fields k x :
  valid h fields = true -> shadowed h fields = false ->
  In (k, x) (own_entries h fields) ->
  fields_body (VRef (length h)) fields k (h ++ ext)
    = js_set (VRef (length h)) k (first_or_self h x) (h ++ ext).
Proof.
  intros V Sh I. unfold fields_body, bind.
  rewrite call_hasOwnProperty_old, Sh by (auto; now apply (entry_key_In k x)).
  rewrite js_get_old, (entries_not_nullish fields k x I),
    (own_entries_field h fields k x wf I) by exact V.
  pose proof (own_entries_valid h fields k x wf I) as Vx.
  rewrite isArray_old by exact Vx.
  destruct (array_ref h x) eqn:A.
  - destruct (first_or_self_array x A) as [Nu F].
    now rewrite js_get_old, Nu, F by exact Vx.
  - now rewrite first_or_self_other.
Qed.

Lemma stored_fields_keys fields :
  map fst (stored_fields h fields) = map fst (own_entries h fields).
Proof. unfold stored_fields. rewrite map_map. reflexivity. Qed.

Lemma stored_fields_In fields k y :
  In (k, y) (stored_fields h fields) ->
  exists x, In (k, x) (own_entries h fields) /\ y = first_or_self h x.
Proof.
  unfold stored_fields. rewrite in_map_iff. intros [[k0 x] [E I]].
  simpl in E. injection E as <- <-. eauto.
Qed.

(** The computed-fields step on the accumulator. *)
Lemma flattenFields_flat rest p ps fields :
  valid h fields = true -> proto_ok h p ->
  if shadowed h fields then
    flattenFields (VRef (length h)) fields (h ++ Obj p ps :: rest)
      = Throw TypeError (h ++ Obj p ps :: rest)
  else
    exists p' ps',
      flattenFields (VRef (length h)) fields (h ++ Obj p ps :: rest)
        = Return VUndefined (h ++ Obj p' ps' :: rest) /\
      proto_ok h p' /\ stores (stored_fields h fields) ps ps'.
Proof.
  intros V P. rewrite flattenFields_unfold.
  cbv beta iota delta [bind ret truthy].
  rewrite for_in_keys_old by exact V.
  destruct (shadowed h fields) eqn:Sh.
  - destruct (shadowed_first_key fields Sh) as [k [ks Ek]].
    rewrite Ek. simpl for_each. unfold bind, fields_body, bind.
    rewrite call_hasOwnProperty_old, Sh; [reflexivity | exact V |].
    rewrite Ek. now left.
  - 
    destruct (for_each_stores rest
                (fields_body (VRef (length h)) fields) (stored_fields h fields))
      with (p := p) (ps := ps) as [p' [ps' [E [P' S']]]].
    + rewrite stored_fields_keys. now apply own_entries_distinct.
    + intros k y I. apply stored_fields_In in I. destruct I as [x [I ->]].
      apply first_or_self_valid. now apply (own_entries_valid h fields k).
    + intros k y p0 ps0 I _. apply stored_fields_In in I. destruct I as [x [I ->]].
      now apply fields_body_step.
    + exact P.
    + exists p', ps'. rewrite stored_fields_keys in E.
      rewrite E. auto.
Qed.

Lemma field_valid v k : valid h v = true -> valid h (field h v k) = true.
Proof.
  intros V. destruct v as [| | | |s|l]; try reflexivity.
  - unfold field. destruct (String.eqb k "length"); [reflexivity|].
    destruct (lookup_prop k (indexed (chars s))) as [y|] eqn:L; [|reflexivity].
    simpl. apply lookup_prop_Some_In, indexed_In in L. now apply (chars_valid h s).
  - unfold field. destruct (h !! l) as [[p ps|vs]|] eqn:E; [| |reflexivity].
    + destruct (lookup_prop k ps) as [y|] eqn:L; [|reflexivity].
      simpl. apply lookup_prop_Some_In in L.
      apply wf_heap_lookup in E; [|exact wf]. apply wf_obj in E.
      now apply (proj2 (proj2 E) k).
    + destruct (String.eqb k "length"); [reflexivity|].
      destruct (lookup_prop k (indexed vs)) as [y|] eqn:L; [|reflexivity].
      simpl. apply lookup_prop_Some_In, indexed_In in L.
      apply (wf_arr h vs); [|exact L]. now apply (wf_heap_lookup h l).
Qed.

Lemma truthy_not_nullish v : truthy v = true -> nullish v = false.
Proof. destruct v; simpl; congruence. Qed.

Lemma stores_meta ps2 ps3 ps4 i d :
  stores [("_index", i)] ps2 ps3 -> stores [("_id", d)] ps3 ps4 ->
  stores [("_index", i); ("_id", d)] ps2 ps4.
Proof.
  intros [S3 K3] [S4 K4]. split.
  - intros k x [I|[I|[]]] N; injection I as <- <-.
    + rewrite K4 by (simpl; intros [E|[]]; discriminate E).
      apply (S3 "_index" i); [now left | exact N].
    + apply (S4 "_id" d); [now left | exact N].
  - intros k N. simpl in N.
    rewrite K4 by (simpl; tauto). apply K3. simpl. tauto.
Qed.

(** [flattenHit] on a present document: it throws exactly when
    [hasOwnProperty] is shadowed, and otherwise returns the accumulator, a
    fresh object behind the document's cells. *)
Lemma flattenHit_present n g hit :
  valid h hit = true -> truthy hit = true ->
  (shadows_hasOwnProperty h hit /\
   exists ext, flattenHit (S n) g hit h = Throw TypeError (h ++ ext)) \/
  (~ shadows_hasOwnProperty h hit /\
   exists p ps rest,
     flattenHit (S n) g hit h = Return (VRef (length h)) (h ++ Obj p ps :: rest) /\
     flattened h hit ps).
Proof.
  intros V T. pose proof (truthy_not_nullish hit T) as Nu.
  unfold shadows_hasOwnProperty, flattened.
  remember (flattenHit (S n) g hit h) as out eqn:Eo. unfold flattenHit in Eo.
  set (src := field h hit "_source") in *. set (fl := field h hit "fields") in *.
  assert (valid h src = true) as Vs by now apply field_valid.
  assert (valid h fl = true) as Vf by now apply field_valid.
  unfold bind at 1 in Eo. unfold new_object at 1 in Eo. rewrite T in Eo.
  unfold bind at 1 2 in Eo. rewrite js_get_old, Nu in Eo by exact V. fold src in Eo.
  unfold bind at 1 in Eo.
  destruct (flattenSource_root n g [] ObjectPrototype [] src Vs I) as [rest1 R].
  destruct (shadowed h src) eqn:Ss.
  { left. split; [now left|]. rewrite R in Eo. subst out. eauto. }
  destruct R as [p1 [ps1 [R [P1 S1]]]]. rewrite R in Eo.
  unfold bind at 1 2 in Eo. rewrite js_get_old, Nu in Eo by exact V. fold fl in Eo.
  assert (forall p2 ps2, proto_ok h p2 ->
            exists p ps,
              (index <- js_get hit "_index" ;;
               js_set (VRef (length h)) "_index" index ;;
               id <- js_get hit "_id" ;;
               js_set (VRef (length h)) "_id" id) (h ++ Obj p2 ps2 :: rest1)
                = Return tt (h ++ Obj p ps :: rest1) /\
              stores [("_index", field h hit "_index"); ("_id", field h hit "_id")] ps2 ps)
    as Meta.
  { intros p2 ps2 P2.
    destruct (js_set_flat rest1 p2 ps2 "_index" (field h hit "_index"))
      as [p3 [ps3 [E3 [P3 S3]]]]; [now apply field_valid | exact P2 |].
    destruct (js_set_flat rest1 p3 ps3 "_id" (field h hit "_id"))
      as [p4 [ps4 [E4 [P4 S4]]]]; [now apply field_valid | exact P3 |].
    exists p4, ps4. split; [|now apply (stores_meta ps2 ps3 ps4)].
    unfold bind at 1. rewrite js_get_old, Nu by exact V.
    unfold bind at 1. rewrite E3.
    unfold bind at 1. rewrite js_get_old, Nu by exact V.
    exact E4. }
  destruct (truthy fl) eqn:Tf.
  - unfold bind at 1 2 in Eo. rewrite js_get_old, Nu in Eo by exact V. fold fl in Eo.
    unfold bind at 1 in Eo.
    pose proof (flattenFields_flat rest1 p1 ps1 fl Vf P1) as F.
    destruct (shadowed h fl) eqn:Sf.
    { left. split; [now right|]. rewrite F in Eo. subst out. eauto. }
    destruct F as [p2 [ps2 [F [P2 S2]]]]. rewrite F in Eo. unfold ret at 1 in Eo.
    destruct (Meta p2 ps2 P2) as [p [ps [E S]]].
    right. split; [intros [C|[_ C]]; congruence|].
    exists p, ps, rest1. split.
    + unfold bind in Eo, E. cbv beta in Eo, E. rewrite E in Eo. exact Eo.
    + exists ps1, ps2. auto.
  - unfold ret at 1 in Eo.
    destruct (Meta p1 ps1 P1) as [p [ps [E S]]].
    right. split; [intros [C|[C _]]; congruence|].
    exists p, ps, rest1. split.
    + unfold bind in Eo, E. cbv beta in Eo, E. rewrite E in Eo. exact Eo.
    + exists ps1, ps1. auto.
Qed.

End Steps.

(** ** The cells of the caller are never written *)

Section Frame.

Variable h0 : heap.

Lemma keeps_ret {A} (a : A) (Q : A -> Prop) : Q a -> keeps h0 (ret a) Q.
Proof. intros q H E. simpl. auto. Qed.

Lemma keeps_bind {A B} (m : M A) (k : A -> M B) (Q : A -> Prop) (R : B -> Prop) :
  keeps h0 m Q -> (forall a, Q a -> keeps h0 (k a) R) -> keeps h0 (x <- m ;; k x) R.
Proof.
  intros Km Kk H E. unfold bind. specialize (Km H E).
  destruct (m H) as [a H'| | |]; auto.
  destruct Km as [E' q]. now apply Kk.
Qed.

Lemma keeps_weaken {A} (m : M A) (Q R : A -> Prop) :
  (forall a, Q a -> R a) -> keeps h0 m Q -> keeps h0 m R.
Proof.
  intros QR K H E. specialize (K H E). destruct (m H); auto.
  destruct K. auto.
Qed.

Lemma keeps_pure {A} (m : M A) :
  (forall H, match m H with
             | Return _ H' | Throw _ H' => H' = H
             | _ => True
             end) ->
  keeps h0 m any.
Proof.
  intros P H E. specialize (P H). destruct (m H); subst; unfold any; auto.
Qed.

Lemma keeps_js_get v k : keeps h0 (js_get v k) any.
Proof.
  apply keeps_pure. intros H. unfold js_get.
  destruct v as [| | | | |l]; auto.
  destruct (H !! l) as [[p ps|vs]|]; auto.
  destruct (lookup_prop k ps); auto. destruct p; auto.
Qed.

Lemma keeps_for_in_keys v : keeps h0 (for_in_keys v) any.
Proof.
  apply keeps_pure. intros H. unfold for_in_keys.
  destruct v as [| | | | |l]; auto.
  destruct (H !! l) as [[p ps|vs]|]; auto. destruct p; auto.
Qed.

Lemma keeps_call_hasOwnProperty v k : keeps h0 (call_hasOwnProperty v k) any.
Proof.
  apply keeps_pure. intros H. unfold call_hasOwnProperty.
  destruct v as [| | | | |l]; auto.
  destruct (H !! l) as [[p ps|vs]|]; auto.
  destruct (lookup_prop "hasOwnProperty" ps); auto. destruct p; auto.
Qed.

Lemma keeps_isArray v : keeps h0 (isArray v) any.
Proof.
  apply keeps_pure. intros H. unfold isArray.
  destruct v as [| | | | |l]; auto.
  destruct (H !! l) as [[p ps|vs]|]; auto.
Qed.

Lemma keeps_new_object : keeps h0 new_object (outside h0).
Proof.
  intros H [ext ->]. unfold new_object. split.
  - exists (ext ++ [Obj ObjectPrototype []]). now rewrite app_assoc.
  - simpl. rewrite length_app. lia.
Qed.

Lemma extends_insert H l c : extends h0 H -> length h0 <= l -> extends h0 (<[l := c]> H).
Proof.
  intros [ext ->] L. rewrite insert_app_r_alt by exact L. eexists. reflexivity.
Qed.

Lemma keeps_set_prototype l ps v :
  length h0 <= l -> keeps h0 (set_prototype l ps v) any.
Proof.
  intros L H E. unfold set_prototype, any.
  destruct v as [| | | | |l']; auto using extends_insert.
  destruct (Nat.eqb l' l); auto.
  destruct (H !! l') as [[p0 ps0|vs]|]; auto using extends_insert.
  destruct p0; auto using extends_insert.
Qed.

Lemma keeps_js_set target k v : outside h0 target -> keeps h0 (js_set target k v) any.
Proof.
  intros O H E. unfold js_set.
  destruct target as [| | | | |l]; try exact E. simpl in O.
  destruct (H !! l) as [[p ps|vs]|]; try exact I. cbv zeta.
  pose proof (keeps_set_prototype l ps v O H E) as Kp.
  assert (extends h0 (<[l := Obj p (assign k v ps)]> H) /\ any tt) as Kd
    by (split; [now apply extends_insert | exact I]).
  destruct (has_own k ps); [exact Kd|].
  destruct (negb (String.eqb k "__proto__")); [exact Kd|].
  destruct p as [| |l']; auto.
  destruct (H !! l') as [[p' ps'|vs']|]; auto.
  destruct (has_own k ps'); [exact Kd|]. destruct p'; auto.
Qed.

Lemma keeps_for_each {A} (xs : list A) (body : A -> M unit) :
  (forall x, keeps h0 (body x) any) -> keeps h0 (for_each xs body) any.
Proof.
  intros Kb. induction xs as [|x xs IH]; simpl.
  - now apply keeps_ret.
  - apply (keeps_bind _ _ any); auto.
Qed.

Lemma keeps_flattenSource fuel accum path properties g :
  outside h0 accum -> keeps h0 (flattenSource fuel accum path properties g) (outside h0).
Proof.
  revert accum path properties. induction fuel as [|n IH]; intros accum path properties O.
  - intros H E. exact I.
  - rewrite flattenSource_unfold.
    apply (keeps_bind _ _ any).
    { destruct properties; try (now apply keeps_ret).
      apply (keeps_weaken _ (outside h0)); [easy | apply keeps_new_object]. }
    intros properties' _.
    apply (keeps_bind _ _ (outside h0)).
    { destruct (truthy accum); [now apply keeps_ret | apply keeps_new_object]. }
    intros accum' O'.
    apply (keeps_bind _ _ any); [apply keeps_for_in_keys|]. intros keys _.
    apply (keeps_bind _ _ any); [|intros _ _; now apply keeps_ret].
    apply keeps_for_each. intros key. unfold source_body.
    apply (keeps_bind _ _ any); [apply keeps_call_hasOwnProperty|].
    intros [|] _; [|now apply keeps_ret]. cbv zeta.
    apply (keeps_bind _ _ any); [|intros value _; now apply keeps_js_set].
    destruct (String.eqb g (new_key path key)); [apply keeps_js_get|].
    apply (keeps_bind _ _ any); [apply keeps_js_get|]. intros pk _.
    apply (keeps_bind _ _ any).
    { destruct (negb (is_null pk) && String.eqb (typeof VUndefined) "object").
      - apply (keeps_bind _ _ any); [apply keeps_isArray|].
        intros arr _. now apply keeps_ret.
      - now apply keeps_ret. }
    intros [|] _; [|apply keeps_js_get].
    apply (keeps_bind _ _ any); [apply keeps_js_get|]. intros pk' _.
    apply (keeps_weaken _ (outside h0)); [easy|]. now apply IH.
Qed.

Lemma keeps_flattenFields accum fields :
  outside h0 accum -> keeps h0 (flattenFields accum fields) any.
Proof.
  intros O. rewrite flattenFields_unfold.
  apply (keeps_bind _ _ (outside h0)).
  { destruct accum; try (now apply keeps_ret). apply keeps_new_object. }
  intros accum1 O1.
  apply (keeps_bind _ _ (outside h0)).
  { destruct (truthy accum1); [now apply keeps_ret | apply keeps_new_object]. }
  intros accum2 O2.
  apply (keeps_bind _ _ any); [apply keeps_for_in_keys|]. intros keys _.
  apply (keeps_bind _ _ any); [|intros _ _; now apply keeps_ret].
  apply keeps_for_each. intros key. unfold fields_body.
  apply (keeps_bind _ _ any); [apply keeps_call_hasOwnProperty|].
  intros [|] _; [|now apply keeps_ret].
  apply (keeps_bind _ _ any); [apply keeps_js_get|]. intros value _.
  apply (keeps_bind _ _ any); [apply keeps_isArray|].
  intros [|] _; [|now apply keeps_js_set].
  apply (keeps_bind _ _ any); [apply keeps_js_get|]. intros first _.
  now apply keeps_js_set.
Qed.

End Frame.

Lemma extends_lookup (h h' : heap) l c : extends h h' -> h !! l = Some c -> h' !! l = Some c.
Proof. intros [ext ->] E. now apply lookup_app_l_Some. Qed.

(** [flattenHit] returns the object it created, and writes to no other. *)
Lemma flattenHit_frame fuel g hit (h : heap) :
  match flattenHit fuel g hit h with
  | Return r h' => r = VRef (length h) /\ extends h h'
  | Throw _ h' => extends h h'
  | Stuck | OutOfFuel => True
  end.
Proof.
  unfold flattenHit. unfold bind at 1. unfold new_object at 1.
  set (flat := VRef (length h)).
  assert (outside h flat) as O by (simpl; lia).
  assert (extends h (h ++ [Obj ObjectPrototype []])) as E by (eexists; reflexivity).
  revert E. generalize (h ++ [Obj ObjectPrototype []]). intros H E.
  match goal with
  | |- match ?m H with _ => _ end =>
      assert (keeps h m (fun r => r = flat)) as K;
        [|specialize (K H E); destruct (m H); tauto]
  end.
  apply (keeps_bind _ _ _ any); [|intros _ _; now apply keeps_ret].
  destruct (truthy hit); [|now apply keeps_ret].
  apply (keeps_bind _ _ _ any); [apply keeps_js_get|]. intros source _.
  apply (keeps_bind _ _ _ any).
  { apply (keeps_weaken _ _ (outside h)); [easy|]. now apply keeps_flattenSource. }
  intros _ _.
  apply (keeps_bind _ _ _ any); [apply keeps_js_get|]. intros fields _.
  apply (keeps_bind _ _ _ any).
  { destruct (truthy fields); [|now apply keeps_ret].
    apply (keeps_bind _ _ _ any); [apply keeps_js_get|]. intros fields' _.
    apply (keeps_bind _ _ _ any); [now apply keeps_flattenFields|].
    intros _ _. now apply keeps_ret. }
  intros _ _.
  apply (keeps_bind _ _ _ any); [apply keeps_js_get|]. intros index _.
  apply (keeps_bind _ _ _ any); [now apply keeps_js_set|]. intros _ _.
  apply (keeps_bind _ _ _ any); [apply keeps_js_get|]. intros id _.
  now apply keeps_js_set.
Qed.


(** ** Outcome of [flattenHit] on a present document *)

Lemma own_property_flat (h rest : heap) p ps k :
  own_property (h ++ Obj p ps :: rest) (VRef (length h)) k = lookup_prop k ps.
Proof. unfold own_property. now rewrite list_lookup_middle. Qed.

Lemma flattenHit_outcome n g (h : heap) hit :
  wf_doc h hit = true -> truthy hit = true ->
  match flattenHit (S n) g hit h with
  | Return r h' =>
      exists p ps rest,
        r = VRef (length h) /\ h' = h ++ Obj p ps :: rest /\ flattened h hit ps
  | Throw _ _ => shadows_hasOwnProperty h hit
  | Stuck | OutOfFuel => False
  end.
Proof.
  unfold wf_doc. rewrite andb_true_iff. intros [W V] T.
  destruct (flattenHit_present h W n g hit V T)
    as [[Sh [ext E]] | [_ [p [ps [rest [E F]]]]]]; rewrite E.
  - exact Sh.
  - exists p, ps, rest. auto.
Qed.

Section Flattened.

Variables (h : heap) (hit : val) (ps : list (string * val)).
Hypothesis F : flattened h hit ps.

Lemma flattened_meta :
  lookup_prop "_index" ps = Some (field h hit "_index") /\
  lookup_prop "_id" ps = Some (field h hit "_id").
Proof.
  destruct F as [ps1 [ps2 [_ [_ [S3 _]]]]]. split.
  - apply S3; [now left | discriminate].
  - apply S3; [right; now left | discriminate].
Qed.

Lemma flattened_field k y :
  truthy (field h hit "fields") = true ->
  In (k, y) (stored_fields h (field h hit "fields")) ->
  k <> "_index" -> k <> "_id" -> k <> "__proto__" ->
  lookup_prop k ps = Some y.
Proof.
  intros T I N1 N2 N3. destruct F as [ps1 [ps2 [_ [S2 [_ K3]]]]].
  rewrite T in S2. rewrite K3 by (simpl; intros [E|[E|[]]]; congruence).
  now apply S2.
Qed.

Lemma flattened_source k x :
  In (k, x) (own_entries h (field h hit "_source")) ->
  (truthy (field h hit "fields") = true ->
   ~ In k (map fst (own_entries h (field h hit "fields")))) ->
  k <> "_index" -> k <> "_id" -> k <> "__proto__" ->
  lookup_prop k ps = Some x.
Proof.
  intros I NF N1 N2 N3. destruct F as [ps1 [ps2 [S1 [S2 [_ K3]]]]].
  rewrite K3 by (simpl; intros [E|[E|[]]]; congruence).
  destruct (truthy (field h hit "fields")).
  - destruct S2 as [_ K2]. rewrite K2.
    + now apply S1.
    + rewrite stored_fields_keys. now apply NF.
  - subst ps2. now apply S1.
Qed.

Lemma flattened_other k :
  ~ In k (map fst (own_entries h (field h hit "_source"))) ->
  (truthy (field h hit "fields") = true ->
   ~ In k (map fst (own_entries h (field h hit "fields")))) ->
  k <> "_index" -> k <> "_id" ->
  lookup_prop k ps = None.
Proof.
  intros NS NF N1 N2. destruct F as [ps1 [ps2 [[_ K1] [S2 [_ K3]]]]].
  rewrite K3 by (simpl; intros [E|[E|[]]]; congruence).
  destruct (truthy (field h hit "fields")).
  - destruct S2 as [_ K2]. rewrite K2.
    + now rewrite K1.
    + rewrite stored_fields_keys. now apply NF.
  - subst ps2. now rewrite K1.
Qed.

End Flattened.

(** A closing step shared by the statements about present documents. *)
Ltac on_outcome n g h hit W T :=
  let O := fresh "O" in
  pose proof (flattenHit_outcome n g h hit W T) as O;
  destruct (flattenHit (S n) g hit h) as [r h'|e h'| |]; [|exact O|exact O|exact O];
  destruct O as [p [ps [rest [-> [-> F]]]]]; rewrite ?own_property_flat.

(** ** Paths *)

Lemma length_append (s t : string) :
  String.length (s ++ t) = String.length s + String.length t.
Proof. induction s as [|c s IH]; simpl; [reflexivity | now rewrite IH]. Qed.

Lemma new_key_longer path key :
  path <> "" -> String.length path < String.length (new_key path key).
Proof.
  intros N. unfold new_key. simpl.
  destruct (String.eqb_spec path "") as [E|_]; [contradiction|]. simpl.
  rewrite !length_append. simpl. lia.
Qed.

Lemma descend_longer ks path :
  path <> "" -> ks <> [] -> String.length path < String.length (descend path ks).
Proof.
  unfold descend. revert path. induction ks as [|k ks IH]; intros path N NE.
  - contradiction.
  - simpl. pose proof (new_key_longer path k N) as L.
    destruct ks as [|k' ks']; [exact L|].
    assert (new_key path k <> "") as N'.
    { intros E. rewrite E in L. simpl in L. lia. }
    specialize (IH (new_key path k) N'). simpl in *.
    etransitivity; [exact L | apply IH; discriminate].
Qed.

Lemma has_dot_append (s t : string) : has_dot (s ++ t) = has_dot s || has_dot t.
Proof.
  induction s as [|c s IH]; simpl; [reflexivity|]. now rewrite IH, orb_assoc.
Qed.

Lemma has_dot_nonempty (s : string) : has_dot s = true -> s <> "".
Proof. now destruct s. Qed.

Lemma new_key_has_dot path key : path <> "" -> has_dot (new_key path key) = true.
Proof.
  intros N. unfold new_key. simpl.
  destruct (String.eqb_spec path "") as [E|_]; [contradiction|]. simpl.
  rewrite has_dot_append. simpl. apply orb_true_r.
Qed.

Lemma descend_has_dot ks path :
  path <> "" -> ks <> [] -> has_dot (descend path ks) = true.
Proof.
  unfold descend. revert path. induction ks as [|k ks IH]; intros path N NE.
  - contradiction.
  - simpl. pose proof (new_key_has_dot path k N) as D.
    destruct ks as [|k' ks']; [exact D|].
    apply IH; [now apply has_dot_nonempty | discriminate].
Qed.

Lemma not_index_key k (vs : list val) :
  NilEmpty.uint_of_string k = None -> lookup_prop k (indexed vs) = None.
Proof.
  intros U. apply lookup_prop_None. rewrite keys_indexed, in_map_iff.
  intros [i [E _]]. unfold index_key in E. subst k.
  rewrite NilEmpty.usu in U. discriminate U.
Qed.

Lemma absent_field (h : heap) hit k :
  NilEmpty.uint_of_string k = None -> String.eqb k "length" = false ->
  own_property h hit k = None -> field h hit k = VUndefined.
Proof.
  intros U L A. destruct hit as [| | | |s|l]; try reflexivity.
  - unfold field. now rewrite L, not_index_key.
  - unfold field, own_property in *.
    destruct (h !! l) as [[p ps|vs]|]; [| |reflexivity].
    + now rewrite A.
    + now rewrite L, not_index_key.
Qed.

(** ** The properties of the flattener *)

(** C1 (the code departs from the claim).  The claim: without a path equal to
    the geometry designator the source-tree part of the result is the full
    pre-order walk, nested objects descended into.  On [{_source: {a: {b: 1}}}]
    with designator [geom] the walk of the specification lists [a.b] = 1; the
    code tests the type of the still undefined [value], never descends, and
    stores the object [a] itself, with no entry [a.b]. *)
Theorem nested_object_stored_whole :
  spec_walk 3 Nested.store "geom" "" (VRef 1) = Some [("a.b", VNumber 1)] /\
  flattenHit 3 "geom" Nested.hit Nested.store
    = Return (VRef 3)
        (Nested.store ++
         [Obj ObjectPrototype
            [("a", VRef 0); ("_index", VUndefined); ("_id", VUndefined)]]).
Proof. split; reflexivity. Qed.

(** C2 (the code departs from the claim).  The claim: the example document
    with designator [geom] gives [a.b], [a.c], [geom], [_index] and [_id].
    The code returns [a] (the nested object itself), [geom], [_index] and
    [_id]: there is no entry [a.b] and none [a.c]. *)
Theorem example_document_result :
  spec_walk 5 Example.store "geom" "" (VRef 4)
    = Some [("a.b", VNumber 1); ("a.c", VRef 0); ("geom", VRef 3)] /\
  flattenHit 5 "geom" Example.hit Example.store
    = Return (VRef 6)
        (Example.store ++
         [Obj ObjectPrototype
            [("a", VRef 1); ("geom", VRef 3);
             ("_index", VString "logs-1"); ("_id", VString "abc")]]).
Proof. split; reflexivity. Qed.

(** C3, as claimed, fails: a root key of the source tree equals the
    designator [geom], and the entry of the result at [geom] is the first
    element of the computed field of that name, not the geometry object. *)
Lemma geometry_entry_replaced_by_computed_field :
  ~ (forall n g (h : heap) hit x r h',
       wf_doc h hit = true ->
       In (g, x) (own_entries h (field h hit "_source")) ->
       flattenHit (S n) g hit h = Return r h' ->
       own_property h' r g = Some x).
Proof.
  intros C.
  specialize (C 0 "geom" GeometryInFields.store GeometryInFields.hit (VRef 1)
                (VRef 6) _ eq_refl (or_introl eq_refl) eq_refl).
  discriminate C.
Qed.

(** C3, amended.  For every present document and every root key of its
    source tree that equals the geometry designator, is none of [_index],
    [_id] and [__proto__], and is not a key of a truthy table of computed
    fields: the entry of the returned map at that key is the original value,
    the same reference, and the cells it leads to are unchanged.  (The only
    other outcome is the exception of a shadowed [hasOwnProperty].) *)
Theorem geometry_root_entry_kept n g (h : heap) hit x :
  wf_doc h hit = true -> truthy hit = true ->
  In (g, x) (own_entries h (field h hit "_source")) ->
  g <> "_index" -> g <> "_id" -> g <> "__proto__" ->
  (truthy (field h hit "fields") = true ->
   ~ In g (map fst (own_entries h (field h hit "fields")))) ->
  match flattenHit (S n) g hit h with
  | Return r h' =>
      own_property h' r g = Some x /\
      (forall l c, h !! l = Some c -> h' !! l = Some c)
  | Throw _ _ => shadows_hasOwnProperty h hit
  | Stuck | OutOfFuel => False
  end.
Proof.
  intros W T I N1 N2 N3 NF. on_outcome n g h hit W T. split.
  - now apply (flattened_source h hit).
  - intros l c E. now apply lookup_app_l_Some.
Qed.

Lemma geometry_root_entry_kept_witness :
  exists h',
    flattenHit 1 "geom" Example.hit Example.store = Return (VRef 6) h' /\
    own_property h' (VRef 6) "geom" = Some (VRef 3) /\
    (forall l c, Example.store !! l = Some c -> h' !! l = Some c).
Proof.
  eexists. split; [reflexivity|].
  apply (geometry_root_entry_kept 0 "geom" Example.store Example.hit (VRef 3)).
  - reflexivity.
  - reflexivity.
  - simpl. right. now left.
  - discriminate.
  - discriminate.
  - discriminate.
  - discriminate.
Defined.

(** C4.  For every present document the returned map has the own
    properties [_index] and [_id], bound to the document's [_index] and
    [_id], whatever the source tree and the computed fields hold under these
    names.  (The only other outcome is the exception of a shadowed
    [hasOwnProperty].) *)
Theorem meta_fields_attached n g (h : heap) hit :
  wf_doc h hit = true -> truthy hit = true ->
  match flattenHit (S n) g hit h with
  | Return r h' =>
      own_property h' r "_index" = Some (field h hit "_index") /\
      own_property h' r "_id" = Some (field h hit "_id")
  | Throw _ _ => shadows_hasOwnProperty h hit
  | Stuck | OutOfFuel => False
  end.
Proof.
  intros W T. on_outcome n g h hit W T. now apply flattened_meta.
Qed.

Lemma meta_fields_attached_witness :
  exists h',
    flattenHit 1 "geom" MetaInFields.hit MetaInFields.store = Return (VRef 3) h' /\
    own_property h' (VRef 3) "_index" = Some (VString "logs-1") /\
    own_property h' (VRef 3) "_id" = Some (VString "abc").
Proof.
  eexists. split; [reflexivity|].
  apply (meta_fields_attached 0 "geom" MetaInFields.store MetaInFields.hit);
    reflexivity.
Defined.

(** C5, as claimed, fails: the table of computed fields has the entry
    [_id] with the array [["zzz", "yyy"]], and the result holds the
    document's identifier ["abc"] under [_id], not ["zzz"]. *)
Lemma computed_field_replaced_by_meta_field :
  ~ (forall n g (h : heap) hit k x r h',
       wf_doc h hit = true ->
       truthy (field h hit "fields") = true ->
       In (k, x) (own_entries h (field h hit "fields")) ->
       flattenHit (S n) g hit h = Return r h' ->
       (array_ref h x = true -> own_property h' r k = Some (field h x "0")) /\
       (array_ref h x = false -> own_property h' r k = Some x)).
Proof.
  intros C.
  destruct (C 0 "geom" MetaInFields.store MetaInFields.hit "_id" (VRef 0)
              (VRef 3) _ eq_refl eq_refl (or_introl eq_refl) eq_refl) as [C1 _].
  specialize (C1 eq_refl). discriminate C1.
Qed.

(** C5, amended.  For every present document with a truthy table of computed
    fields and every entry of the table whose key is none of [_index], [_id]
    and [__proto__]: if the entry's value is an array the returned map holds
    its element [0] under the key ([undefined] for an empty array), and
    otherwise it holds the value unchanged.  (The only other outcome is the
    exception of a shadowed [hasOwnProperty].) *)
Theorem computed_fields_first_element n g (h : heap) hit k x :
  wf_doc h hit = true -> truthy hit = true ->
  truthy (field h hit "fields") = true ->
  In (k, x) (own_entries h (field h hit "fields")) ->
  k <> "_index" -> k <> "_id" -> k <> "__proto__" ->
  match flattenHit (S n) g hit h with
  | Return r h' =>
      (array_ref h x = true -> own_property h' r k = Some (field h x "0")) /\
      (array_ref h x = false -> own_property h' r k = Some x)
  | Throw _ _ => shadows_hasOwnProperty h hit
  | Stuck | OutOfFuel => False
  end.
Proof.
  intros W T Tf I N1 N2 N3. on_outcome n g h hit W T.
  assert (lookup_prop k ps = Some (first_or_self h x)) as L.
  { apply (flattened_field h hit ps F k); auto.
    unfold stored_fields. apply in_map_iff. exists (k, x). auto. }
  rewrite L. split; intros A.
  - now rewrite (proj2 (first_or_self_array h x A)).
  - now rewrite first_or_self_other.
Qed.

Lemma computed_fields_first_element_witness :
  exists h',
    flattenHit 1 "geom" WithFields.hit WithFields.store = Return (VRef 4) h' /\
    (array_ref WithFields.store (VRef 1) = true ->
     own_property h' (VRef 4) "bytes" = Some (VNumber 42)) /\
    (array_ref WithFields.store (VRef 1) = false ->
     own_property h' (VRef 4) "bytes" = Some (VRef 1)).
Proof.
  eexists. split; [reflexivity|].
  apply (computed_fields_first_element 0 "geom" WithFields.store WithFields.hit
           "bytes" (VRef 1)).
  - reflexivity.
  - reflexivity.
  - reflexivity.
  - simpl. now left.
  - discriminate.
  - discriminate.
  - discriminate.
Defined.

(** C6 (the code departs from the claim).  The claim: [flattenHit] never
    raises.  On [{_index: "logs-1", _id: "abc", _source: {hasOwnProperty: true}}]
    the guard [properties.hasOwnProperty(key)] finds the document's own
    property instead of the method, and the call throws a TypeError. *)
Theorem shadowed_hasOwnProperty_throws :
  flattenHit 1 "geom" Shadowing.hit Shadowing.store
    = Throw TypeError (Shadowing.store ++ [Obj ObjectPrototype []]).
Proof. reflexivity. Qed.

(** C7.  For a falsy document ([undefined], [null], [false], [0], the empty
    string) [flattenHit] returns a fresh object without any property, and
    raises nothing. *)
Theorem absent_document_gives_empty_map n g (h : heap) hit :
  truthy hit = false ->
  flattenHit n g hit h = Return (VRef (length h)) (h ++ [Obj ObjectPrototype []]).
Proof.
  intros T. unfold flattenHit, bind, new_object. now rewrite T.
Qed.

Lemma absent_document_gives_empty_map_witness :
  flattenHit 0 "geom" VUndefined Example.store
    = Return (VRef 6) (Example.store ++ [Obj ObjectPrototype []]).
Proof.
  apply (absent_document_gives_empty_map 0 "geom" Example.store VUndefined).
  reflexivity.
Defined.

(** C8.  The geometry test is exact equality of full paths: the path of a
    proper descendant of a (non-empty) path is never equal to it, so no
    descendant of the geometry path is taken for the geometry.  And no path
    below the designator appears in the returned map unless the document
    itself has that very name as a root key of the source tree or as a key
    of a truthy table of computed fields.  (The only other outcome is the
    exception of a shadowed [hasOwnProperty].) *)
Theorem geometry_match_is_exact :
  (forall path ks, path <> "" -> ks <> [] ->
     String.eqb path (descend path ks) = false) /\
  (forall n g (h : heap) hit ks,
     wf_doc h hit = true -> truthy hit = true ->
     g <> "" -> ks <> [] ->
     ~ In (descend g ks) (map fst (own_entries h (field h hit "_source"))) ->
     (truthy (field h hit "fields") = true ->
      ~ In (descend g ks) (map fst (own_entries h (field h hit "fields")))) ->
     match flattenHit (S n) g hit h with
     | Return r h' => own_property h' r (descend g ks) = None
     | Throw _ _ => shadows_hasOwnProperty h hit
     | Stuck | OutOfFuel => False
     end).
Proof.
  split.
  - intros path ks N NE. apply String.eqb_neq. intros E.
    pose proof (descend_longer ks path N NE) as L. rewrite <- E in L. lia.
  - intros n g h hit ks W T N NE NS NF. on_outcome n g h hit W T.
    pose proof (descend_has_dot ks g N NE) as D.
    apply (flattened_other h hit ps F); auto; intros E; rewrite E in D; discriminate D.
Qed.

Lemma geometry_match_is_exact_witness :
  String.eqb "geom" "geom.coordinates" = false /\
  exists h',
    flattenHit 1 "geom" Example.hit Example.store = Return (VRef 6) h' /\
    own_property h' (VRef 6) "geom.coordinates" = None.
Proof.
  split; [|eexists; split; [reflexivity|]].
  - apply (proj1 geometry_match_is_exact "geom" ["coordinates"]); discriminate.
  - apply (proj2 geometry_match_is_exact 0 "geom" Example.store Example.hit
             ["coordinates"]).
    + reflexivity.
    + reflexivity.
    + discriminate.
    + discriminate.
    + simpl. intros [E|[E|[]]]; discriminate E.
    + discriminate.
Defined.

(** ** The recursion budget is never drawn on *)

Lemma for_each_ext {A} (xs : list A) (body body' : A -> M unit) :
  (forall x H, body x H = body' x H) ->
  forall H, for_each xs body H = for_each xs body' H.
Proof.
  intros B. induction xs as [|x xs IH]; intros H; simpl; [reflexivity|].
  unfold bind. rewrite B. destruct (body' x H); auto.
Qed.

(** The type test reads [undefined], so the branch with the recursive call
    is dead, whatever the entry. *)
Lemma source_body_fuel n m accum path properties g key H :
  source_body n accum path properties g key H
    = source_body m accum path properties g key H.
Proof.
  unfold source_body, bind.
  destruct (call_hasOwnProperty properties key H) as [[|] H1| | |]; try reflexivity.
  cbv zeta. destruct (String.eqb g (new_key path key)); [reflexivity|].
  destruct (js_get properties key H1) as [pk H2| | |]; try reflexivity.
  change (String.eqb (typeof VUndefined) "object") with false.
  rewrite andb_false_r. reflexivity.
Qed.

Lemma flattenSource_fuel n m accum path properties g H :
  flattenSource (S n) accum path properties g H
    = flattenSource (S m) accum path properties g H.
Proof.
  rewrite !flattenSource_unfold. unfold bind.
  destruct (match properties with VUndefined => new_object | _ => ret properties end H)
    as [properties' H1| | |]; try reflexivity.
  destruct ((if truthy accum then ret accum else new_object) H1)
    as [accum' H2| | |]; try reflexivity.
  destruct (for_in_keys properties' H2) as [keys H3| | |]; try reflexivity.
  rewrite (for_each_ext keys _ (source_body m accum' path properties' g));
    [reflexivity|].
  intros key H4. apply source_body_fuel.
Qed.

Lemma flattenHit_fuel n m g hit H :
  flattenHit (S n) g hit H = flattenHit (S m) g hit H.
Proof.
  unfold flattenHit, bind.
  destruct (new_object H) as [flat H1| | |]; try reflexivity.
  destruct (truthy hit); [|reflexivity].
  destruct (js_get hit "_source" H1) as [source H2| | |]; try reflexivity.
  now rewrite (flattenSource_fuel n m).
Qed.

(** C9.  Whatever the arguments, [flattenHit] writes to no cell of the
    caller: after a return or an exception every cell that existed before is
    where it was and unchanged (the document, its source tree, its computed
    fields, and all they refer to), and the object returned is a new one.
    The result is a function of the designator, the document and the store
    the document points into: there is no other state, and the recursion
    budget of the embedding does not matter.  (The designator is a string,
    which nothing can modify.) *)
Theorem flattenHit_writes_only_its_result g hit (h : heap) :
  (forall fuel,
     match flattenHit fuel g hit h with
     | Return r h' =>
         r = VRef (length h) /\ h !! length h = None /\
         (forall l c, h !! l = Some c -> h' !! l = Some c)
     | Throw _ h' => forall l c, h !! l = Some c -> h' !! l = Some c
     | Stuck | OutOfFuel => True
     end) /\
  (forall n m, flattenHit (S n) g hit h = flattenHit (S m) g hit h).
Proof.
  split; [|intros n m; apply flattenHit_fuel].
  intros fuel. pose proof (flattenHit_frame fuel g hit h) as K.
  destruct (flattenHit fuel g hit h) as [r h'|e h'| |]; auto.
  - destruct K as [-> E]. split; [reflexivity | split].
    + now apply lookup_ge_None.
    + intros l c. now apply extends_lookup.
  - intros l c. now apply extends_lookup.
Qed.

(** C10.  For every present document the returned map has the own
    properties [_index] and [_id], also when the document has no own
    [_index] (or [_id]): the property is then bound to [undefined].  (The
    only other outcome is the exception of a shadowed [hasOwnProperty].) *)
Theorem absent_identifiers_stored_as_undefined n g (h : heap) hit :
  wf_doc h hit = true -> truthy hit = true ->
  match flattenHit (S n) g hit h with
  | Return r h' =>
      is_Some (own_property h' r "_index") /\
      is_Some (own_property h' r "_id") /\
      (own_property h hit "_index" = None ->
       own_property h' r "_index" = Some VUndefined) /\
      (own_property h hit "_id" = None ->
       own_property h' r "_id" = Some VUndefined)
  | Throw _ _ => shadows_hasOwnProperty h hit
  | Stuck | OutOfFuel => False
  end.
Proof.
  intros W T. on_outcome n g h hit W T.
  destruct (flattened_meta h hit ps F) as [Li Ld].
  rewrite Li, Ld. repeat split; eauto; intros A; f_equal; now apply absent_field.
Qed.

Lemma absent_identifiers_stored_as_undefined_witness :
  exists h',
    flattenHit 1 "geom" Nested.hit Nested.store = Return (VRef 3) h' /\
    own_property h' (VRef 3) "_index" = Some VUndefined /\
    own_property h' (VRef 3) "_id" = Some VUndefined.
Proof.
  eexists. split; [reflexivity|].
  destruct (absent_identifiers_stored_as_undefined 0 "geom" Nested.store Nested.hit
              eq_refl eq_refl) as [_ [_ [Hindex Hid]]].
  split; [apply Hindex | apply Hid]; reflexivity.
Defined.

(** * Further properties of the module *)

(** ** The geometry designator has no effect *)

Lemma js_get_pure v k H x H' : js_get v k H = Return x H' -> H' = H.
Proof.
  unfold js_get. destruct v as [| | | | |l]; try (intros E; congruence).
  destruct (H !! l) as [[p ps|vs]|]; try (intros E; congruence).
  destruct (lookup_prop k ps); [intros E; congruence|].
  destruct p; intros E; congruence.
Qed.

(** Both branches of the loop body store [properties[key]]: the geometry
    branch directly, the other one after a type test that always fails. *)
Lemma source_body_designator n m accum path properties g g' key H :
  source_body n accum path properties g key H
    = source_body m accum path properties g' key H.
Proof.
  assert (forall n g,
            source_body n accum path properties g key H
              = (own <- call_hasOwnProperty properties key ;;
                 if own : bool then
                   value <- js_get properties key ;;
                   js_set accum (new_key path key) value
                 else ret tt) H) as Same.
  { clear. intros n g. unfold source_body, bind.
    destruct (call_hasOwnProperty properties key H) as [[|] H1| | |]; try reflexivity.
    cbv zeta. destruct (String.eqb g (new_key path key)); [reflexivity|].
    destruct (js_get properties key H1) as [pk H2| | |] eqn:G; try reflexivity.
    change (String.eqb (typeof VUndefined) "object") with false.
    rewrite andb_false_r. unfold ret.
    pose proof (js_get_pure _ _ _ _ _ G) as ->. now rewrite G. }
  now rewrite (Same n g), (Same m g').
Qed.

Lemma flattenSource_designator n m accum path properties g g' H :
  flattenSource (S n) accum path properties g H
    = flattenSource (S m) accum path properties g' H.
Proof.
  rewrite !flattenSource_unfold. unfold bind.
  destruct (match properties with VUndefined => new_object | _ => ret properties end H)
    as [properties' H1| | |]; try reflexivity.
  destruct ((if truthy accum then ret accum else new_object) H1)
    as [accum' H2| | |]; try reflexivity.
  destruct (for_in_keys properties' H2) as [keys H3| | |]; try reflexivity.
  rewrite (for_each_ext keys _ (source_body m accum' path properties' g'));
    [reflexivity|].
  intros key H4. apply source_body_designator.
Qed.

(** X1.  The geometry designator does not influence the result: for every
    document and store, [flattenHit] with one designator and with another
    give the same outcome and the same final store. *)
Theorem flattenHit_ignores_designator n m g g' hit (h : heap) :
  flattenHit (S n) g hit h = flattenHit (S m) g' hit h.
Proof.
  unfold flattenHit, bind.
  destruct (new_object h) as [flat H1| | |]; try reflexivity.
  destruct (truthy hit); [|reflexivity].
  destruct (js_get hit "_source" H1) as [source H2| | |]; try reflexivity.
  now rewrite (flattenSource_designator n m _ _ _ g g').
Qed.

(** ** When the module throws *)

Lemma flattenHit_falsy n g (h : heap) hit :
  truthy hit = false ->
  flattenHit n g hit h = Return (VRef (length h)) (h ++ [Obj ObjectPrototype []]).
Proof. intros T. unfold flattenHit, bind, new_object. now rewrite T. Qed.

(** X2.  On a well-formed store [flattenHit] throws exactly when the
    document is truthy and its source tree, or its truthy table of computed
    fields, has an own property named [hasOwnProperty]; on every other
    document it returns a new object. *)
Theorem flattenHit_throws_iff n g (h : heap) hit :
  wf_doc h hit = true ->
  ((exists h', flattenHit (S n) g hit h = Throw TypeError h') <->
   (truthy hit = true /\ shadows_hasOwnProperty h hit)) /\
  ((exists h', flattenHit (S n) g hit h = Return (VRef (length h)) h') <->
   ~ (truthy hit = true /\ shadows_hasOwnProperty h hit)).
Proof.
  intros W. destruct (truthy hit) eqn:T.
  - pose proof W as W'. unfold wf_doc in W'. apply andb_true_iff in W'.
    destruct W' as [Wh V].
    destruct (flattenHit_present h Wh n g hit V T)
      as [[Sh [ext E]] | [NSh [p [ps [rest [E F]]]]]]; rewrite E.
    + split; split.
      * auto.
      * intros _. eauto.
      * intros [h' C]. discriminate C.
      * intros C. exfalso. apply C. auto.
    + split; split.
      * intros [h' C]. discriminate C.
      * intros [_ C]. contradiction.
      * intros _ [_ C]. contradiction.
      * intros _. eauto.
  - rewrite (flattenHit_falsy (S n) g h hit T). split; split.
    + intros [h' C]. discriminate C.
    + intros [C _]. discriminate C.
    + intros _ [C _]. discriminate C.
    + intros _. eauto.
Qed.

Lemma flattenHit_throws_iff_witness :
  truthy Shadowing.hit = true /\
  shadows_hasOwnProperty Shadowing.store Shadowing.hit.
Proof.
  apply (proj1 (proj1 (flattenHit_throws_iff 0 "geom" Shadowing.store Shadowing.hit
                         eq_refl))).
  eexists. reflexivity.
Defined.

(** ** The keys and the values of the result *)

Lemma key_entry k (es : list (string * val)) :
  In k (map fst es) -> exists x, In (k, x) es.
Proof.
  rewrite in_map_iff. intros [[k' x] [E I]]. simpl in E. subst k'. eauto.
Qed.

(** X3.  The own properties of the result are the root keys of the source
    tree, the keys of a truthy table of computed fields, [_index] and [_id],
    and nothing else (the name [__proto__] apart): no dotted path is built,
    no key of the document is dropped. *)
Theorem result_keys n g (h : heap) hit k :
  wf_doc h hit = true -> truthy hit = true -> k <> "__proto__" ->
  match flattenHit (S n) g hit h with
  | Return r h' =>
      is_Some (own_property h' r k) <->
      (k = "_index" \/ k = "_id" \/
       In k (map fst (own_entries h (field h hit "_source"))) \/
       (truthy (field h hit "fields") = true /\
        In k (map fst (own_entries h (field h hit "fields")))))
  | Throw _ _ => shadows_hasOwnProperty h hit
  | Stuck | OutOfFuel => False
  end.
Proof.
  intros W T N. on_outcome n g h hit W T.
  destruct (flattened_meta h hit ps F) as [Li Ld].
  destruct (string_dec k "_index") as [->|N1]; [rewrite Li; split; eauto|].
  destruct (string_dec k "_id") as [->|N2]; [rewrite Ld; split; eauto|].
  set (fl := field h hit "fields") in *.
  assert ({truthy fl = true /\ In k (map fst (own_entries h fl))} +
          {truthy fl = true -> ~ In k (map fst (own_entries h fl))}) as [[Tf If]|NF].
  { destruct (truthy fl); [|right; discriminate].
    destruct (in_dec string_dec k (map fst (own_entries h fl))); [left|right]; auto. }
  - split; [auto|]. intros _.
    destruct (key_entry k _ If) as [x Ix].
    rewrite (flattened_field h hit ps F k (first_or_self h x)); eauto.
    unfold stored_fields. apply in_map_iff. exists (k, x). auto.
  - destruct (in_dec string_dec k (map fst (own_entries h (field h hit "_source"))))
      as [Is|NS].
    + split; [auto|]. intros _. destruct (key_entry k _ Is) as [x Ix].
      rewrite (flattened_source h hit ps F k x); eauto.
    + rewrite (flattened_other h hit ps F k); auto. split.
      * intros [x C]. discriminate C.
      * intros [C|[C|[C|[C1 C2]]]]; try contradiction. exfalso. now apply NF.
Qed.

Lemma result_keys_witness :
  exists h',
    flattenHit 1 "geom" WithFields.hit WithFields.store = Return (VRef 4) h' /\
    (is_Some (own_property h' (VRef 4) "bytes") <->
     ("bytes" = "_index" \/ "bytes" = "_id" \/
      In "bytes" [] \/
      (true = true /\ In "bytes" ["bytes"; "host"]))).
Proof.
  eexists. split; [reflexivity|].
  apply (result_keys 0 "geom" WithFields.store WithFields.hit "bytes");
    [reflexivity | reflexivity | discriminate].
Defined.

(** X4.  A root entry of the source tree that no computed field and no
    meta field replaces is stored as it is, whatever the designator: an
    object or an array is stored as the reference it is, so the result
    shares it with the document, and its cell is the one it was. *)
Theorem root_entries_shared n g (h : heap) hit k x :
  wf_doc h hit = true -> truthy hit = true ->
  In (k, x) (own_entries h (field h hit "_source")) ->
  k <> "_index" -> k <> "_id" -> k <> "__proto__" ->
  (truthy (field h hit "fields") = true ->
   ~ In k (map fst (own_entries h (field h hit "fields")))) ->
  match flattenHit (S n) g hit h with
  | Return r h' =>
      own_property h' r k = Some x /\
      (forall l, x = VRef l -> is_Some (h !! l) /\ h' !! l = h !! l)
  | Throw _ _ => shadows_hasOwnProperty h hit
  | Stuck | OutOfFuel => False
  end.
Proof.
  intros W T I N1 N2 N3 NF.
  assert (valid h x = true) as Vx.
  { unfold wf_doc in W. apply andb_true_iff in W.
    now apply (own_entries_valid h (field h hit "_source") k x). }
  on_outcome n g h hit W T. split.
  - now apply (flattened_source h hit).
  - intros l ->. apply valid_ref in Vx.
    rewrite lookup_app_l by exact Vx. split; [|reflexivity].
    now apply lookup_lt_is_Some.
Qed.

Lemma root_entries_shared_witness :
  exists h',
    flattenHit 1 "geom" Example.hit Example.store = Return (VRef 6) h' /\
    own_property h' (VRef 6) "a" = Some (VRef 1) /\
    (forall l, VRef 1 = VRef l ->
       is_Some (Example.store !! l) /\ h' !! l = Example.store !! l).
Proof.
  eexists. split; [reflexivity|].
  apply (root_entries_shared 0 "geom" Example.store Example.hit "a" (VRef 1)).
  - reflexivity.
  - reflexivity.
  - simpl. now left.
  - discriminate.
  - discriminate.
  - discriminate.
  - discriminate.
Defined.

(** ** Edge cases of the input *)

(** X5.  A computed field whose array is empty is not skipped: its key is
    an own property of the result, bound to [undefined]. *)
Theorem empty_computed_field_is_undefined n g (h : heap) hit k l :
  wf_doc h hit = true -> truthy hit = true ->
  truthy (field h hit "fields") = true ->
  In (k, VRef l) (own_entries h (field h hit "fields")) ->
  h !! l = Some (Arr []) ->
  k <> "_index" -> k <> "_id" -> k <> "__proto__" ->
  match flattenHit (S n) g hit h with
  | Return r h' => own_property h' r k = Some VUndefined
  | Throw _ _ => shadows_hasOwnProperty h hit
  | Stuck | OutOfFuel => False
  end.
Proof.
  intros W T Tf I E N1 N2 N3. on_outcome n g h hit W T.
  apply (flattened_field h hit ps F k); auto.
  unfold stored_fields. apply in_map_iff. exists (k, VRef l). split; [|exact I].
  simpl. now rewrite E.
Qed.

Lemma empty_computed_field_is_undefined_witness :
  exists h',
    flattenHit 1 "geom" Odd.hit Odd.store = Return (VRef 5) h' /\
    own_property h' (VRef 5) "tags" = Some VUndefined.
Proof.
  eexists. split; [reflexivity|].
  apply (empty_computed_field_is_undefined 0 "geom" Odd.store Odd.hit "tags" 2).
  - reflexivity.
  - reflexivity.
  - reflexivity.
  - simpl. now left.
  - reflexivity.
  - discriminate.
  - discriminate.
  - discriminate.
Defined.

Lemma indexed_lookup_from start (vs : list val) i x :
  vs !! i = Some x ->
  In (index_key (start + i), x) (combine (map index_key (seq start (length vs))) vs).
Proof.
  revert start i. induction vs as [|v vs IH]; intros start i E.
  - discriminate E.
  - destruct i as [|i]; simpl in *.
    + injection E as ->. left. now rewrite Nat.add_0_r.
    + right. rewrite <- Nat.add_succ_comm. now apply IH.
Qed.

Lemma indexed_lookup (vs : list val) i x :
  vs !! i = Some x -> In (index_key i, x) (indexed vs).
Proof. intros E. apply (indexed_lookup_from 0 vs i x E). Qed.

Lemma index_key_not_name i k : NilEmpty.uint_of_string k = None -> index_key i <> k.
Proof.
  intros U E. unfold index_key in E. subst k. rewrite NilEmpty.usu in U. discriminate U.
Qed.

(** X6.  A source that is an array instead of an object is walked by
    index: element [i] is stored under the key of the decimal numeral of
    [i] (unless a computed field of that name replaces it), and nothing is
    raised. *)
Theorem array_source_is_indexed n g (h : heap) hit l vs i x :
  wf_doc h hit = true -> truthy hit = true ->
  field h hit "_source" = VRef l -> h !! l = Some (Arr vs) ->
  vs !! i = Some x ->
  (truthy (field h hit "fields") = true ->
   ~ In (index_key i) (map fst (own_entries h (field h hit "fields")))) ->
  match flattenHit (S n) g hit h with
  | Return r h' => own_property h' r (index_key i) = Some x
  | Throw _ _ => truthy (field h hit "fields") = true /\
                 shadowed h (field h hit "fields") = true
  | Stuck | OutOfFuel => False
  end.
Proof.
  intros W T Es El Ei NF.
  pose proof (flattenHit_outcome n g h hit W T) as O.
  destruct (flattenHit (S n) g hit h) as [r h'|e h'| |]; try exact O.
  - destruct O as [p [ps [rest [-> [-> F]]]]]. rewrite own_property_flat.
    apply (flattened_source h hit ps F); auto.
    + rewrite Es. unfold own_entries. rewrite El. now apply indexed_lookup.
    + now apply index_key_not_name.
    + now apply index_key_not_name.
    + now apply index_key_not_name.
  - destruct O as [Sh|Sh]; [|exact Sh].
    rewrite Es in Sh. unfold shadowed in Sh. rewrite El in Sh. discriminate Sh.
Qed.

Lemma array_source_is_indexed_witness :
  exists h',
    flattenHit 1 "geom" Odd.hit Odd.store = Return (VRef 5) h' /\
    own_property h' (VRef 5) "1" = Some (VRef 0).
Proof.
  eexists. split; [reflexivity|].
  apply (array_source_is_indexed 0 "geom" Odd.store Odd.hit 1
           [VString "x"; VRef 0] 1 (VRef 0)).
  - reflexivity.
  - reflexivity.
  - reflexivity.
  - reflexivity.
  - reflexivity.
  - simpl. intros _ [E|[]]. discriminate E.
Defined.

Lemma js_get_primitive v k (H : heap) :
  truthy v = true -> (forall l, v <> VRef l) ->
  NilEmpty.uint_of_string k = None -> String.eqb k "length" = false ->
  js_get v k H = Return VUndefined H.
Proof.
  intros T NR U L. unfold js_get.
  destruct v as [| |b|z|s|l]; try discriminate T; try reflexivity.
  - now rewrite L, not_index_key.
  - now destruct (NR l).
Qed.

(** X7.  A truthy document that is not an object (a number, [true], a
    non-empty string) is accepted: the result has the two meta fields, both
    [undefined], and nothing else; the store gains the result and the empty
    default object of the source walk. *)
Theorem primitive_document_gives_meta_only n g (h : heap) hit :
  truthy hit = true -> (forall l, hit <> VRef l) ->
  flattenHit (S n) g hit h
    = Return (VRef (length h))
        (h ++ [Obj ObjectPrototype [("_index", VUndefined); ("_id", VUndefined)];
               Obj ObjectPrototype []]).
Proof.
  intros T NR. unfold flattenHit. unfold bind at 1. unfold new_object at 1.
  rewrite T. unfold bind at 1 2.
  rewrite (js_get_primitive hit "_source") by auto.
  unfold bind at 1. rewrite flattenSource_unfold.
  cbv beta iota delta [bind ret new_object truthy for_in_keys].
  rewrite list_lookup_middle by reflexivity. cbv beta iota.
  simpl for_each. cbv beta iota delta [ret].
  rewrite (js_get_primitive hit "fields") by auto. cbv beta iota.
  rewrite (js_get_primitive hit "_index") by auto.
  rewrite <- app_assoc. simpl app.
  unfold js_set at 1. rewrite list_lookup_middle by reflexivity.
  simpl. rewrite insert_middle.
  rewrite (js_get_primitive hit "_id") by auto.
  unfold js_set. rewrite list_lookup_middle by reflexivity.
  simpl. rewrite insert_middle. reflexivity.
Qed.

Lemma primitive_document_gives_meta_only_witness :
  flattenHit 1 "geom" (VString "abc") Example.store
    = Return (VRef 6)
        (Example.store ++
         [Obj ObjectPrototype [("_index", VUndefined); ("_id", VUndefined)];
          Obj ObjectPrototype []]).
Proof.
  apply (primitive_document_gives_meta_only 0 "geom" Example.store (VString "abc")).
  - reflexivity.
  - discriminate.
Defined.

(** ** The accumulator, exactly *)

Section Exact.

Variable h : heap.
Hypothesis wf : wf_heap h = true.

Lemma put_proto_ok o k v :
  valid h v = true -> proto_ok h (fst o) -> proto_ok h (fst (put h o (k, v))).
Proof.
  intros V P. destruct o as [p ps]. unfold put. simpl in P.
  assert (proto_ok h (fst (match v with
                           | VNull => (NullPrototype, ps)
                           | VRef l => (ProtoRef l, ps)
                           | _ => (p, ps)
                           end))) as Ps.
  { destruct v; simpl; auto. now apply valid_ref. }
  destruct (has_own k ps); [exact P|].
  destruct (negb (String.eqb k "__proto__")); [exact P|].
  destruct p as [| |l']; auto.
  destruct (h !! l') as [[p' ps'|vs]|]; auto.
  destruct (has_own k ps'); auto.
Qed.

Lemma js_set_put rest p ps k v :
  valid h v = true -> proto_ok h p ->
  js_set (VRef (length h)) k v (h ++ Obj p ps :: rest)
    = Return tt (h ++ (let (p', ps') := put h (p, ps) (k, v) in Obj p' ps') :: rest).
Proof.
  intros V P. unfold js_set, put.
  rewrite list_lookup_middle by reflexivity. cbv zeta.
  assert (set_prototype (length h) ps v (h ++ Obj p ps :: rest)
          = Return tt (h ++ (let (p', ps') :=
                               match v with
                               | VNull => (NullPrototype, ps)
                               | VRef l => (ProtoRef l, ps)
                               | _ => (p, ps)
                               end in Obj p' ps') :: rest)) as Hs.
  { unfold set_prototype. destruct v as [| | | |s|l]; try reflexivity.
    - now rewrite insert_middle.
    - destruct (Nat.eqb_spec l (length h)) as [->|Hl].
      { apply valid_ref in V. lia. }
      destruct (valid_ref_cell h l wf V) as [c [E W]].
      rewrite lookup_old by now apply valid_ref. rewrite E, insert_middle.
      destruct c as [p0 ps0|vs]; [|reflexivity].
      apply wf_obj in W. now destruct W as [-> _]. }
  destruct (has_own k ps); [now rewrite insert_middle|].
  destruct (negb (String.eqb k "__proto__")); [now rewrite insert_middle|].
  destruct p as [| |l']; [exact Hs | now rewrite insert_middle |].
  simpl in P.
  destruct (valid_ref_cell h l') as [c [E W]]; [exact wf | now apply Nat.ltb_lt |].
  rewrite lookup_old by exact P. rewrite E.
  destruct c as [p0 ps0|vs]; [|exact Hs].
  apply wf_obj in W. destruct W as [-> _].
  destruct (has_own k ps0); [now rewrite insert_middle | exact Hs].
Qed.

Lemma js_set_put_pair rest o k v :
  valid h v = true -> proto_ok h (fst o) ->
  js_set (VRef (length h)) k v (h ++ (let (p, ps) := o in Obj p ps) :: rest)
    = Return tt (h ++ (let (p', ps') := put h o (k, v) in Obj p' ps') :: rest).
Proof. destruct o as [p ps]. apply js_set_put. Qed.

(** A loop that assigns the entry of each key, under a key derived from it. *)
Lemma for_each_put rest (rename : string -> string) (body : string -> M unit)
    (es : list (string * val)) :
  (forall k x, In (k, x) es -> valid h x = true) ->
  (forall k x p ps, In (k, x) es -> proto_ok h p ->
     body k (h ++ Obj p ps :: rest)
       = js_set (VRef (length h)) (rename k) x (h ++ Obj p ps :: rest)) ->
  forall o, proto_ok h (fst o) ->
  for_each (map fst es) body (h ++ (let (p, ps) := o in Obj p ps) :: rest)
    = Return tt
        (h ++ (let (p', ps') :=
                 fold_left (put h) (map (fun e => (rename (fst e), snd e)) es) o
               in Obj p' ps') :: rest) /\
  proto_ok h (fst (fold_left (put h) (map (fun e => (rename (fst e), snd e)) es) o)).
Proof.
  induction es as [|[k x] es IH]; intros V B o P.
  - split; [reflexivity | exact P].
  - simpl. destruct o as [p ps].
    assert (valid h x = true) as Vx by (apply (V k x); now left).
    unfold bind. rewrite (B k x) by (auto; now left).
    rewrite js_set_put by auto.
    apply IH.
    + intros k0 x0 I. apply (V k0 x0). now right.
    + intros k0 x0 p0 ps0 I. apply B. now right.
    + now apply put_proto_ok.
Qed.

Lemma source_body_any_path n g path ext src k x :
  valid h src = true -> shadowed h src = false ->
  In (k, x) (own_entries h src) ->
  source_body n (VRef (length h)) path src g k (h ++ ext)
    = js_set (VRef (length h)) (new_key path k) x (h ++ ext).
Proof.
  intros V Sh I. unfold source_body, bind.
  rewrite call_hasOwnProperty_old, Sh by (auto; now apply (entry_key_In k x)).
  cbv zeta.
  change (String.eqb (typeof VUndefined) "object") with false.
  pose proof (entries_not_nullish h src k x I) as Nu.
  pose proof (own_entries_field h src k x wf I) as F.
  destruct (String.eqb g (new_key path k)); rewrite js_get_old, Nu, F by auto;
    [reflexivity|].
  rewrite andb_false_r. unfold ret.
  rewrite js_get_old, Nu, F by auto. reflexivity.
Qed.

(** [flattenSource] on an accumulator behind the document's cells, with any
    path prefix. *)
Lemma flattenSource_exact n g path rest o src :
  valid h src = true -> shadowed h src = false -> proto_ok h (fst o) ->
  flattenSource (S n) (VRef (length h)) path src g
      (h ++ (let (p, ps) := o in Obj p ps) :: rest)
    = Return (VRef (length h))
        (h ++ (let (p', ps') :=
                 fold_left (put h) (prefixed path (own_entries h src)) o
               in Obj p' ps') :: rest ++ default_object src) /\
  proto_ok h (fst (fold_left (put h) (prefixed path (own_entries h src)) o)).
Proof.
  intros V Sh P. rewrite flattenSource_unfold.
  destruct (nullish src) eqn:Nu; [destruct src; try discriminate|].
  - (* undefined *)
    split; [|exact P]. simpl own_entries. simpl default_object.
    cbv beta iota delta [bind ret new_object truthy for_in_keys].
    rewrite list_lookup_middle by reflexivity. simpl.
    now rewrite <- app_assoc.
  - (* null *)
    split; [|exact P]. simpl. now rewrite app_nil_r.
  - assert ((match src with VUndefined => new_object | _ => ret src end) = ret src) as ->
      by (destruct src; try reflexivity; discriminate).
    assert (default_object src = []) as ->
      by (destruct src; try reflexivity; discriminate).
    rewrite app_nil_r.
    cbv beta iota delta [bind ret truthy].
    rewrite for_in_keys_old by auto.
    destruct (for_each_put rest (new_key path)
                (source_body n (VRef (length h)) path src g) (own_entries h src))
      with (o := o) as [E P'].
    + intros k x. now apply own_entries_valid.
    + intros k x p0 ps0 I _. now apply source_body_any_path.
    + exact P.
    + unfold prefixed. now rewrite E.
Qed.

Lemma flattenFields_exact rest o fields :
  valid h fields = true -> shadowed h fields = false -> proto_ok h (fst o) ->
  flattenFields (VRef (length h)) fields (h ++ (let (p, ps) := o in Obj p ps) :: rest)
    = Return VUndefined
        (h ++ (let (p', ps') := fold_left (put h) (stored_fields h fields) o
               in Obj p' ps') :: rest) /\
  proto_ok h (fst (fold_left (put h) (stored_fields h fields) o)).
Proof.
  intros V Sh P. rewrite flattenFields_unfold.
  cbv beta iota delta [bind ret truthy].
  rewrite for_in_keys_old by auto.
  assert (map (fun e : string * val => (fst e, snd e)) (stored_fields h fields)
          = stored_fields h fields) as Id.
  { rewrite <- (map_id (stored_fields h fields)) at 2.
    apply map_ext. now intros [k x]. }
  destruct (for_each_put rest (fun k => k)
              (fields_body (VRef (length h)) fields) (stored_fields h fields))
    with (o := o) as [E P'].
  - intros k y I. apply stored_fields_In in I. destruct I as [x [I ->]].
    apply first_or_self_valid; [exact wf|]. now apply (own_entries_valid h fields k).
  - intros k y p0 ps0 I _. apply stored_fields_In in I. destruct I as [x [I ->]].
    now apply fields_body_step.
  - exact P.
  - rewrite Id in E, P'. rewrite stored_fields_keys in E. now rewrite E.
Qed.

Lemma prefixed_root (es : list (string * val)) : prefixed "" es = es.
Proof.
  unfold prefixed. rewrite <- (map_id es) at 2. apply map_ext. now intros [k x].
Qed.

Lemma flattenHit_exact n g hit :
  valid h hit = true -> truthy hit = true -> ~ shadows_hasOwnProperty h hit ->
  flattenHit (S n) g hit h
    = Return (VRef (length h))
        (h ++ flat_object h hit :: default_object (field h hit "_source")).
Proof.
  intros V T NSh. pose proof (truthy_not_nullish hit T) as Nu.
  unfold shadows_hasOwnProperty in NSh. unfold flat_object, assignments.
  set (src := field h hit "_source") in *. set (fl := field h hit "fields") in *.
  assert (valid h src = true) as Vs by now apply field_valid.
  assert (valid h fl = true) as Vf by now apply field_valid.
  assert (shadowed h src = false) as Ss.
  { destruct (shadowed h src); [exfalso; apply NSh; now left | reflexivity]. }
  rewrite !fold_left_app.
  set (o0 := (ObjectPrototype, @nil (string * val))).
  unfold flattenHit. unfold bind at 1. unfold new_object at 1. rewrite T.
  unfold bind at 1 2. rewrite js_get_old, Nu by auto. fold src.
  unfold bind at 1.
  change (h ++ [Obj ObjectPrototype []])
    with (h ++ (let (p, ps) := o0 in Obj p ps) :: []).
  destruct (flattenSource_exact n g "" [] o0 src Vs Ss I) as [Es Ps].
  rewrite prefixed_root in Es, Ps. rewrite Es. simpl app.
  set (o1 := fold_left (put h) (own_entries h src) o0) in *.
  unfold bind at 1 2. rewrite js_get_old, Nu by auto. fold fl.
  assert (forall o, proto_ok h (fst o) ->
            (index <- js_get hit "_index" ;;
             js_set (VRef (length h)) "_index" index ;;
             id <- js_get hit "_id" ;;
             js_set (VRef (length h)) "_id" id)
              (h ++ (let (p, ps) := o in Obj p ps) :: default_object src)
            = Return tt
                (h ++ (let (p', ps') :=
                         fold_left (put h)
                           [("_index", field h hit "_index"); ("_id", field h hit "_id")] o
                       in Obj p' ps') :: default_object src)) as Meta.
  { intros o Po.
    unfold bind at 1. rewrite js_get_old, Nu by auto.
    unfold bind at 1. rewrite js_set_put_pair by (auto; now apply field_valid).
    pose proof (put_proto_ok o "_index" (field h hit "_index")
                  (field_valid h wf hit "_index" V) Po) as P3.
    unfold bind at 1. rewrite js_get_old, Nu by auto.
    rewrite js_set_put_pair by (auto; now apply field_valid).
    reflexivity. }
  destruct (truthy fl) eqn:Tf.
  - assert (shadowed h fl = false) as Sf.
    { destruct (shadowed h fl); [exfalso; apply NSh; now right | reflexivity]. }
    unfold bind at 1. rewrite js_get_old, Nu by auto. fold fl.
    unfold bind at 1.
    destruct (flattenFields_exact (default_object src) o1 fl Vf Sf Ps) as [Ef Pf].
    rewrite Ef. unfold ret at 1.
    rewrite (Meta _ Pf). reflexivity.
  - unfold ret at 1.
    rewrite (Meta _ Ps). reflexivity.
Qed.

End Exact.

(** ** Assignments to the accumulator, one after the other *)

Section Put.

Variable h : heap.

Implicit Types (o : proto * list (string * val)) (k : string) (v : val)
  (es : list (string * val)).


Lemma put_lookup_ne o k k' v :
  k' <> k -> lookup_prop k' (snd (put h o (k, v))) = lookup_prop k' (snd o).
Proof.
  intros N. destruct o as [p ps]. unfold put.
  pose proof (lookup_assign_ne k k' v ps N) as A.
  assert (lookup_prop k' (snd (match v with
                               | VNull => (NullPrototype, ps)
                               | VRef l => (ProtoRef l, ps)
                               | _ => (p, ps)
                               end)) = lookup_prop k' ps) as Hs by now destruct v.
  destruct (has_own k ps); [exact A|].
  destruct (negb (String.eqb k "__proto__")); [exact A|].
  destruct p as [| |l']; auto.
  destruct (h !! l') as [[p' ps'|vs]|]; auto.
  destruct (has_own k ps'); auto.
Qed.

Lemma put_proto_other o k v : k <> "__proto__" -> fst (put h o (k, v)) = fst o.
Proof.
  intros N. destruct o as [p ps]. unfold put.
  destruct (has_own k ps); [reflexivity|].
  destruct (String.eqb_spec k "__proto__"); [contradiction | reflexivity].
Qed.

Lemma put_proto_setter o v :
  fst o = ObjectPrototype -> lookup_prop "__proto__" (snd o) = None ->
  put h o ("__proto__", v) = (as_prototype v, snd o).
Proof.
  destruct o as [p ps]. simpl. intros -> L. unfold put, has_own. rewrite L.
  simpl. now destruct v.
Qed.


Lemma fold_put_other es o :
  ~ In "__proto__" (map fst es) ->
  fst (fold_left (put h) es o) = fst o /\
  lookup_prop "__proto__" (snd (fold_left (put h) es o))
    = lookup_prop "__proto__" (snd o).
Proof.
  revert o. induction es as [|[k x] es IH]; intros o N.
  - auto.
  - simpl in *. destruct (IH (put h o (k, x))) as [P L]; [tauto|].
    rewrite P, L. split.
    + apply put_proto_other. intros ->. apply N. now left.
    + apply put_lookup_ne. intros <-. apply N. now left.
Qed.

(** Among distinct keys the one assignment of [__proto__] decides the
    prototype, and leaves no property of that name. *)
Lemma fold_put_proto es o x :
  distinct (map fst es) = true -> In ("__proto__", x) es ->
  fst o = ObjectPrototype -> lookup_prop "__proto__" (snd o) = None ->
  fst (fold_left (put h) es o) = as_prototype x /\
  lookup_prop "__proto__" (snd (fold_left (put h) es o)) = None.
Proof.
  revert o. induction es as [|[k v] es IH]; intros o D I P L.
  - destruct I.
  - simpl in D. apply andb_true_iff in D. destruct D as [Dk D].
    apply negb_true_iff in Dk.
    assert (~ In k (map fst es)) as Nk.
    { intros C. apply existsb_eqb_In in C. congruence. }
    simpl. destruct I as [I|I].
    + injection I as -> ->. rewrite (put_proto_setter o x P L).
      destruct (fold_put_other es (as_prototype x, snd o) Nk) as [P' L'].
      now rewrite P', L'.
    + assert (k <> "__proto__") as N.
      { intros ->. apply Nk. now apply (entry_key_In "__proto__" x). }
      apply IH; auto.
      * now rewrite put_proto_other.
      * rewrite put_lookup_ne; auto.
Qed.

End Put.

(** ** The result as a whole *)



(** X9.  A root key [__proto__] of the source tree (a parsed document can
    have one) never becomes a property of the result: the assignment
    reaches the prototype setter, so an object or [null] held under that key
    becomes the prototype of the returned map, and any other value is
    dropped.  (Stated for documents whose computed fields have no key
    [__proto__].) *)
Theorem proto_key_sets_the_prototype n g (h : heap) hit x :
  wf_doc h hit = true -> truthy hit = true ->
  In ("__proto__", x) (own_entries h (field h hit "_source")) ->
  (truthy (field h hit "fields") = true ->
   ~ In "__proto__" (map fst (own_entries h (field h hit "fields")))) ->
  match flattenHit (S n) g hit h with
  | Return r h' =>
      prototype_of h' r = Some (as_prototype x) /\
      own_property h' r "__proto__" = None
  | Throw _ _ => shadows_hasOwnProperty h hit
  | Stuck | OutOfFuel => False
  end.
Proof.
  intros W T I NF. pose proof W as W'.
  unfold wf_doc in W'. apply andb_true_iff in W'. destruct W' as [Wh V].
  destruct (flattenHit_present h Wh n g hit V T)
    as [[Sh [ext E]] | [NSh _]]; [now rewrite E|].
  rewrite (flattenHit_exact h Wh n g hit V T NSh).
  unfold prototype_of, own_property. rewrite list_lookup_middle by reflexivity.
  unfold flat_object, assignments. rewrite !fold_left_app.
  set (src := field h hit "_source") in *. set (fl := field h hit "fields") in *.
  destruct (fold_put_proto h (own_entries h src) (ObjectPrototype, []) x)
    as [P1 L1]; auto using own_entries_distinct.
  set (o1 := fold_left (put h) (own_entries h src) (ObjectPrototype, [])) in *.
  destruct (fold_put_other h (if truthy fl then stored_fields h fl else []) o1)
    as [P2 L2].
  { destruct (truthy fl); [|intros []]. rewrite stored_fields_keys. now apply NF. }
  set (o2 := fold_left (put h) (if truthy fl then stored_fields h fl else []) o1) in *.
  destruct (fold_put_other h
              [("_index", field h hit "_index"); ("_id", field h hit "_id")] o2)
    as [P3 L3].
  { simpl. intros [C|[C|[]]]; discriminate C. }
  destruct (fold_left (put h)
              [("_index", field h hit "_index"); ("_id", field h hit "_id")] o2)
    as [p ps].
  simpl in P3, L3. split; congruence.
Qed.

Lemma proto_key_sets_the_prototype_witness :
  exists h',
    flattenHit 1 "geom" Proto.hit Proto.store = Return (VRef 3) h' /\
    prototype_of h' (VRef 3) = Some (ProtoRef 0) /\
    own_property h' (VRef 3) "__proto__" = None.
Proof.
  eexists. split; [reflexivity|].
  apply (proto_key_sets_the_prototype 0 "geom" Proto.store Proto.hit (VRef 0)).
  - reflexivity.
  - reflexivity.
  - simpl. now left.
  - discriminate.
Defined.

(** ** [flattenSource] below the root *)






(** ** What the result refers to *)

Lemma assign_In k v k' y (ps : list (string * val)) :
  In (k', y) (assign k v ps) -> y = v \/ In (k', y) ps.
Proof.
  induction ps as [|[k0 v0] ps IH]; simpl.
  - intros [E|[]]. injection E as _ <-. now left.
  - destruct (String.eqb k k0); simpl.
    + intros [E|I]; [injection E as _ <-; now left | right; now right].
    + intros [E|I]; [right; now left|]. destruct (IH I); auto.
Qed.

Lemma put_values (h : heap) o k v k' y :
  In (k', y) (snd (put h o (k, v))) -> y = v \/ In (k', y) (snd o).
Proof.
  destruct o as [p ps]. unfold put. intros I.
  assert (In (k', y) (assign k v ps) -> y = v \/ In (k', y) ps) as A
    by apply assign_In.
  assert (In (k', y) (snd (match v with
                           | VNull => (NullPrototype, ps)
                           | VRef l => (ProtoRef l, ps)
                           | _ => (p, ps)
                           end)) -> y = v \/ In (k', y) ps) as Hs
    by (destruct v; simpl; auto).
  destruct (has_own k ps); [auto|].
  destruct (negb (String.eqb k "__proto__")); [auto|].
  destruct p as [| |l']; auto.
  destruct (h !! l') as [[p' ps'|vs]|]; auto.
  destruct (has_own k ps'); auto.
Qed.

Lemma fold_put_values (h : heap) (es : list (string * val)) o k' y :
  In (k', y) (snd (fold_left (put h) es o)) ->
  In y (map snd es) \/ In (k', y) (snd o).
Proof.
  revert o. induction es as [|[k v] es IH]; intros o I; simpl in *.
  - now right.
  - destruct (IH _ I) as [C|C]; [left; now right|].
    destruct (put_values h o k v k' y C) as [->|C']; auto.
Qed.

Lemma assignments_valid (h : heap) hit y :
  wf_heap h = true -> valid h hit = true ->
  In y (map snd (assignments h hit)) -> valid h y = true.
Proof.
  intros W V. unfold assignments. rewrite !map_app, !in_app_iff.
  intros [I|[I|I]].
  - apply in_map_iff in I. destruct I as [[k x] [<- I]].
    now apply (own_entries_valid h (field h hit "_source") k).
  - destruct (truthy (field h hit "fields")); [|destruct I].
    apply in_map_iff in I. destruct I as [[k x] [<- I]].
    apply stored_fields_In in I. destruct I as [x0 [I ->]].
    apply first_or_self_valid; [exact W|].
    now apply (own_entries_valid h (field h hit "fields") k).
  - simpl in I. destruct I as [<-|[<-|[]]]; now apply field_valid.
Qed.

(** X11.  Every value held by the result is a value of the document: a
    reference in the result points to a cell that existed before the call,
    never to the result itself and never to an object made by the call.
    The returned map therefore has no cycle through itself. *)
Theorem result_refers_to_the_document_only n g (h : heap) hit :
  wf_doc h hit = true -> truthy hit = true ->
  match flattenHit (S n) g hit h with
  | Return r h' =>
      forall k y, own_property h' r k = Some y -> valid h y = true /\ y <> r
  | Throw _ _ => shadows_hasOwnProperty h hit
  | Stuck | OutOfFuel => False
  end.
Proof.
  intros W T. pose proof W as W'.
  unfold wf_doc in W'. apply andb_true_iff in W'. destruct W' as [Wh V].
  destruct (flattenHit_present h Wh n g hit V T)
    as [[Sh [ext E]] | [NSh _]]; [now rewrite E|].
  rewrite (flattenHit_exact h Wh n g hit V T NSh).
  intros k y. unfold own_property. rewrite list_lookup_middle by reflexivity.
  unfold flat_object.
  destruct (fold_left (put h) (assignments h hit) (ObjectPrototype, []))
    as [p ps] eqn:Ef.
  intros L. apply lookup_prop_Some_In in L.
  assert (valid h y = true) as Vy.
  { apply (assignments_valid h hit y Wh V).
    destruct (fold_put_values h (assignments h hit) (ObjectPrototype, []) k y)
      as [C|[]]; [now rewrite Ef | exact C]. }
  split; [exact Vy|]. intros ->. apply valid_ref in Vy. lia.
Qed.

Lemma result_refers_to_the_document_only_witness :
  exists h',
    flattenHit 1 "geom" Example.hit Example.store = Return (VRef 6) h' /\
    (own_property h' (VRef 6) "a" = Some (VRef 1) ->
     valid Example.store (VRef 1) = true /\ VRef 1 <> VRef 6).
Proof.
  eexists. split; [reflexivity|].
  apply (result_refers_to_the_document_only 0 "geom" Example.store Example.hit
           eq_refl eq_refl "a" (VRef 1)).
Defined.
